(** * tsz: the abstract interpreter and its value model

    The development follows the two source modules: the constraint and value
    types of [src/value.ts], and, of the compiler module, the scope chain
    ([Scope.lookupVar], [Scope.setVar]), the join [applyToValue], the
    evaluator [execNode] and the driver [compile].

    JavaScript objects that the code compares with [===] (property records,
    native handlers, syntax nodes held by a constraint) carry an address, and
    [===] on them compares addresses.  Numbers are IEEE 754 doubles and are
    modelled by primitive floats, whose [PrimFloat.eqb] is the IEEE equality
    that [===] computes on numbers. *)

From Stdlib Require Import Floats.PrimFloat ZArith.
From stdpp Require Import gmap strings list sorting.

Open Scope string_scope.
Open Scope list_scope.
Set Warnings "-register-all".

(** ** value.ts *)

Inductive ValueType : Type :=
| EXCEPTION | ANY | UNDEFINED | NULL | BOOLEAN | NUMBER
| STRING | ARRAY | OBJECT | FUNCTION | SYMBOL.

Definition ValueType_code (t : ValueType) : Z :=
  match t with
  | EXCEPTION => 1 | ANY => 2 | UNDEFINED => 3 | NULL => 4 | BOOLEAN => 5
  | NUMBER => 6 | STRING => 7 | ARRAY => 8 | OBJECT => 9 | FUNCTION => 10
  | SYMBOL => 11
  end.

#[global] Instance ValueType_eq_dec : EqDecision ValueType.
Proof. solve_decision. Defined.

(** An optional property [k?: T] of an object literal: the key is not an own
    key ([Missing]), or it is an own key holding [undefined] ([Undef]), or it
    holds a value. *)
Inductive Opt (T : Type) : Type :=
| Missing
| Undef
| Val (v : T).
Arguments Missing {T}.
Arguments Undef {T}.
Arguments Val {T} v.

(** Truthiness of an optional property whose values are objects or functions
    (always truthy when present and defined). *)
Definition defined {T} (o : Opt T) : option T :=
  match o with Val v => Some v | _ => None end.

(** [hasSideEffects?: boolean] used as a condition. *)
Definition truthy (o : Opt bool) : bool :=
  match o with Val b => b | _ => false end.

(** Addresses of heap objects compared by reference. *)
Definition Addr := nat.

(** [ValueConstraint] and [Value].  [props] is a reference to a record from
    property names to values; [handler] and [node] are references. *)
Inductive ValueConstraint : Type :=
| CAny
| CUndefined
| CNull
| CBoolean (value : Opt bool)
| CNumber (value : Opt float)
| CObject (props : Opt (Addr * gmap string Value))
| CFunction (hasSideEffects : Opt bool) (handler : Opt Addr) (node : Opt Addr)
with Value : Type :=
| mkValue (constraints : list ValueConstraint).

Definition constraints (v : Value) : list ValueConstraint :=
  match v with mkValue cs => cs end.

Definition type_of (c : ValueConstraint) : ValueType :=
  match c with
  | CAny => ANY
  | CUndefined => UNDEFINED
  | CNull => NULL
  | CBoolean _ => BOOLEAN
  | CNumber _ => NUMBER
  | CObject _ => OBJECT
  | CFunction _ _ _ => FUNCTION
  end.

(** The object [{ type: t }].  The constraint union has no member for the
    reserved types, and a bucket key is always the type of a constraint. *)
Definition generic (t : ValueType) : option ValueConstraint :=
  match t with
  | ANY => Some CAny
  | UNDEFINED => Some CUndefined
  | NULL => Some CNull
  | BOOLEAN => Some (CBoolean Missing)
  | NUMBER => Some (CNumber Missing)
  | OBJECT => Some (CObject Missing)
  | FUNCTION => Some (CFunction Missing Missing Missing)
  | EXCEPTION | STRING | ARRAY | SYMBOL => None
  end.

(** ** JavaScript values reached through [Object.entries] *)

Inductive JSVal : Type :=
| JUndefined
| JBool (b : bool)
| JNum (x : float)
| JRef (a : Addr).

(** [x === y] *)
Definition strict_eq (x y : JSVal) : bool :=
  match x, y with
  | JUndefined, JUndefined => true
  | JBool a, JBool b => Bool.eqb a b
  | JNum a, JNum b => PrimFloat.eqb a b
  | JRef a, JRef b => Nat.eqb a b
  | _, _ => false
  end.

Definition entry {T} (key : string) (inj : T -> JSVal) (o : Opt T)
  : list (string * JSVal) :=
  match o with
  | Missing => []
  | Undef => [(key, JUndefined)]
  | Val v => [(key, inj v)]
  end.

(** [Object.entries(c).filter(([key]) => key !== "type")] *)
Definition entries (c : ValueConstraint) : list (string * JSVal) :=
  match c with
  | CAny | CUndefined | CNull => []
  | CBoolean value => entry "value" JBool value
  | CNumber value => entry "value" JNum value
  | CObject props => entry "props" (fun p => JRef (fst p)) props
  | CFunction hasSideEffects handler node =>
      entry "hasSideEffects" JBool hasSideEffects
      ++ entry "handler" JRef handler
      ++ entry "node" JRef node
  end.

(** [c[key]]: an own property, else [undefined] (no key of a constraint is
    defined on [Object.prototype]). *)
Fixpoint assoc (key : string) (l : list (string * JSVal)) : JSVal :=
  match l with
  | [] => JUndefined
  | (k, v) :: rest => if String.eqb k key then v else assoc key rest
  end.

Definition get (c : ValueConstraint) (key : string) : JSVal :=
  assoc key (entries c).

(** The predicate given to [existing.some]:
    [Object.keys(c2).length === entries.length + 1 &&
     entries.every(([key, value]) => c2[key] === value)] *)
Definition same_fields (ents : list (string * JSVal)) (c2 : ValueConstraint)
  : bool :=
  Nat.eqb (S (length (entries c2))) (length ents + 1)
  && forallb (fun kv => strict_eq (get c2 (fst kv)) (snd kv)) ents.

(** ** The syntax tree supplied by the parser *)

(** [node.operatorToken.kind] *)
Inductive OperatorKind : Type :=
| FirstAssignment
| OtherOperator (kind : nat).

(** [declaration.name] *)
Inductive BindingName : Type :=
| BindingIdentifier (escapedText : string)
| ArrayBindingPattern
| ObjectBindingPattern.

(** The node kinds the evaluator tells apart; [NumericLiteral] holds
    [+node.text], [Identifier] holds [node.text] and [node.escapedText],
    [PropertyAccessExpression] holds [node.name.escapedText],
    [VariableStatement] holds [node.declarationList.flags] and the
    declarations as pairs of name and initializer.  [OtherSyntax] stands for
    every other kind of node. *)
Inductive Node : Type :=
| SourceFile (statements : list Node)
| VariableStatement (flags : Z)
    (declarations : list (BindingName * option Node))
| CallExpression (expression : Node) (arguments : list Node)
| ExpressionStatement (expression : Node)
| BinaryExpression (left : Node) (operatorToken : OperatorKind) (right : Node)
| PropertyAccessExpression (expression : Node) (name : string)
| NumericLiteral (text : float)
| Identifier (text : string) (escapedText : string)
| NullKeyword
| TrueKeyword
| FalseKeyword
| OtherSyntax (kind : nat).

(** [ts.NodeFlags.Let] and [ts.NodeFlags.Const] *)
Definition NodeFlags_Let : Z := 1.
Definition NodeFlags_Const : Z := 2.

(** ** The compiler module: errors, scopes, results *)

Inductive NodeRef : Type :=
| AtNode (n : Node)
| AtName (b : BindingName).

Record CompileError : Type := mkCompileError {
  message : string;
  node : option NodeRef
}.

Definition unsupported (n : Node) : CompileError :=
  mkCompileError "Unsupported JS code encountered" (Some (AtNode n)).

Inductive Scope : Type :=
| mkScope (parent : option Scope) (bindings : gmap string Value).

Definition parent (s : Scope) : option Scope :=
  match s with mkScope p _ => p end.
Definition bindings (s : Scope) : gmap string Value :=
  match s with mkScope _ b => b end.

Fixpoint lookupVar (name : string) (scope : Scope) : option Value :=
  match scope with
  | mkScope p b =>
      match b !! name with
      | Some value => Some value
      | None =>
          match p with
          | Some scope' => lookupVar name scope'
          | None => None
          end
      end
  end.

(** [setVar] mutates one scope of the chain; the chain after the call is
    returned. *)
Fixpoint setVar (name : string) (value : Value) (scope : Scope) : Scope :=
  match scope with
  | mkScope (Some p) b =>
      if bool_decide (is_Some (b !! name))
      then mkScope (Some p) (<[name := value]> b)
      else mkScope (Some (setVar name value p)) b
  | mkScope None b => mkScope None (<[name := value]> b)
  end.

(** [scope.bindings.set(name, value)] *)
Definition bind_here (name : string) (value : Value) (scope : Scope) : Scope :=
  match scope with
  | mkScope p b => mkScope p (<[name := value]> b)
  end.

Record ExecResult : Type := mkResult {
  value : option Value;
  exception : option Value;
  identifier : option string
}.

Definition no_result : ExecResult := mkResult None None None.
Definition of_value (v : Value) : ExecResult := mkResult (Some v) None None.
Definition of_exception (v : Value) : ExecResult := mkResult None (Some v) None.

(** ** The state of one run and the monad of the evaluator *)

(** The scope object passed to [execNode] and the array [sideEffects]; each
    entry [{ args }] is kept as its argument list. *)
Record State : Type := mkState {
  scope : Scope;
  sideEffects : list (list Value)
}.

Inductive Res (A : Type) : Type :=
| Ok (a : A)
| Thrown (e : CompileError).
Arguments Ok {A} a.
Arguments Thrown {A} e.

Definition Exec (A : Type) : Type := State -> Res A * State.

Definition ret {A} (a : A) : Exec A := fun s => (Ok a, s).
Definition throw {A} (e : CompileError) : Exec A := fun s => (Thrown e, s).
Definition bind {A B} (m : Exec A) (k : A -> Exec B) : Exec B :=
  fun s =>
    match m s with
    | (Ok a, s') => k a s'
    | (Thrown e, s') => (Thrown e, s')
    end.

Notation "'let!' x ':=' m 'in' k" := (bind m (fun x => k))
  (at level 10, x name, m at level 100, k at level 200).

Definition getScope : Exec Scope := fun s => (Ok (scope s), s).
Definition modifyScope (f : Scope -> Scope) : Exec unit :=
  fun s => (Ok tt, mkState (f (scope s)) (sideEffects s)).
Definition pushSideEffect (args : list Value) : Exec unit :=
  fun s => (Ok tt, mkState (scope s) (sideEffects s ++ [args])).

(** ** applyToValue *)

(** [constraintsByType[t]]: absent, [true], or an array. *)
Inductive Bucket : Type :=
| Generalized
| Entries (existing : list ValueConstraint).

Definition Buckets := ValueType -> option Bucket.

Definition no_buckets : Buckets := fun _ => None.

Definition set_bucket (t : ValueType) (b : Bucket) (m : Buckets) : Buckets :=
  fun t' => if decide (t' = t) then Some b else m t'.

(** One turn of the inner loop on [result]: [inl] is the early
    [return new Value([result])], [inr] the table after the turn. *)
Definition add_result (m : Buckets) (result : ValueConstraint)
  : Value + Buckets :=
  if decide (type_of result = ANY) then inl (mkValue [result])
  else
    match m (type_of result) with
    | Some Generalized => inr m
    | Some (Entries existing) =>
        let ents := entries result in
        if Nat.eqb (length ents) 0
        then inr (set_bucket (type_of result) Generalized m)
        else if negb (existsb (same_fields ents) existing)
        then inr (set_bucket (type_of result) (Entries (existing ++ [result])) m)
        else inr m
    | None => inr (set_bucket (type_of result) (Entries [result]) m)
    end.

(** The inner loop over the array returned by one call of the callback. *)
Fixpoint add_results (m : Buckets) (results : list ValueConstraint)
  : Value + Buckets :=
  match results with
  | [] => inr m
  | result :: rest =>
      match add_result m result with
      | inl v => inl v
      | inr m' => add_results m' rest
      end
  end.

(** [Object.entries] lists integer keys in ascending order. *)
Definition all_types : list ValueType :=
  [EXCEPTION; ANY; UNDEFINED; NULL; BOOLEAN; NUMBER;
   STRING; ARRAY; OBJECT; FUNCTION; SYMBOL].

Definition bucket_constraints (t : ValueType) (b : option Bucket)
  : list ValueConstraint :=
  match b with
  | None => []
  | Some Generalized => option_list (generic t)
  | Some (Entries cs) => cs
  end.

Definition rebuild (m : Buckets) : Value :=
  mkValue (flat_map (fun t => bucket_constraints t (m t)) all_types).

Definition Callback := ValueConstraint -> Exec (list ValueConstraint).

Fixpoint apply_loop (callback : Callback) (cs : list ValueConstraint)
  (m : Buckets) : Exec Value :=
  match cs with
  | [] => ret (rebuild m)
  | constraint :: rest =>
      let! results := callback constraint in
      match add_results m results with
      | inl v => ret v
      | inr m' => apply_loop callback rest m'
      end
  end.

Definition applyToValue (value : Value) (callback : Callback) : Exec Value :=
  apply_loop callback (constraints value) no_buckets.

(** A transform without effects, and the join with it. *)
Definition pure_callback (f : ValueConstraint -> list ValueConstraint)
  : Callback :=
  fun c => ret (f c).

Definition identity_transform (c : ValueConstraint) : list ValueConstraint :=
  [c].

(** ** execNode *)

Section Evaluator.

(** The native functions of the heap: [handlers a] is the function at
    address [a]. *)
Variable handlers : Addr -> list Value -> Value.

(** The callback of the [CallExpression] case. *)
Definition call_callback (node : Node) (args : list Value) : Callback :=
  fun constraint =>
    match constraint with
    | CFunction hasSideEffects handler _ =>
        match defined handler with
        | Some h =>
            let! _ :=
              (if truthy hasSideEffects then pushSideEffect args else ret tt) in
            ret (constraints (handlers h args))
        | None =>
            (* [if (constraint.node) { }] has an empty body *)
            ret [CAny]
        end
    | _ =>
        throw (mkCompileError "Called value may not be a function"
                 (Some (AtNode node)))
    end.

(** The callback of the [PropertyAccessExpression] case. *)
Definition property_callback (node : Node) (name : string) : Callback :=
  fun constraint =>
    match constraint with
    | CObject props =>
        match defined props with
        | None => ret [CAny]
        | Some (_, record) =>
            ret (match record !! name with
                 | Some v => constraints v
                 | None => []
                 end)
        end
    | _ =>
        throw (mkCompileError "Only objects support property access"
                 (Some (AtNode node)))
    end.

Definition undefined_value : Value := mkValue [CUndefined].

Fixpoint execNode (node : Node) : Exec ExecResult :=
  match node with
  | SourceFile statements =>
      (fix run (l : list Node) : Exec ExecResult :=
         match l with
         | [] => ret no_result
         | statement :: rest =>
             let! result := execNode statement in
             match exception result with
             | Some _ => ret no_result
             | None => run rest
             end
         end) statements
  | VariableStatement flags declarations =>
      let isLet := negb (Z.land flags NodeFlags_Let =? 0)%Z in
      let isConst := negb (Z.land flags NodeFlags_Const =? 0)%Z in
      if isLet || isConst then throw (unsupported node)
      else
        (fix run (l : list (BindingName * option Node)) : Exec ExecResult :=
           match l with
           | [] => ret no_result
           | (declared, initializer) :: rest =>
               match declared with
               | BindingIdentifier name =>
                   match initializer with
                   | Some init =>
                       let! result := execNode init in
                       match exception result with
                       | Some _ => ret result
                       | None =>
                           let! _ :=
                             modifyScope
                               (bind_here name
                                  (default undefined_value (value result))) in
                           run rest
                       end
                   | None =>
                       let! _ := modifyScope (bind_here name undefined_value) in
                       run rest
                   end
               | _ =>
                   throw (mkCompileError "destructuring is not supported"
                            (Some (AtName declared)))
               end
           end) declarations
  | CallExpression expression arguments =>
      let! callee := execNode expression in
      match exception callee, value callee with
      | None, Some callee_value =>
          (fix run (l : list Node) (args : list Value) : Exec ExecResult :=
             match l with
             | [] =>
                 let! v :=
                   applyToValue callee_value (call_callback node args) in
                 ret (of_value v)
             | arg :: rest =>
                 let! result := execNode arg in
                 match exception result, value result with
                 | None, Some v => run rest (args ++ [v])
                 | _, _ => ret result
                 end
             end) arguments []
      | _, _ => ret callee
      end
  | ExpressionStatement expression => execNode expression
  | BinaryExpression lhs operatorToken rhs =>
      match operatorToken with
      | FirstAssignment =>
          match lhs with
          | Identifier _ identifier =>
              let! sc := getScope in
              match lookupVar identifier sc with
              | None => ret (of_exception undefined_value)
              | Some _ =>
                  let! result := execNode rhs in
                  match exception result, value result with
                  | None, Some v =>
                      let! _ := modifyScope (setVar identifier v) in
                      ret result
                  | _, _ => ret result
                  end
              end
          | _ => throw (unsupported lhs)
          end
      | OtherOperator _ => throw (unsupported node)
      end
  | PropertyAccessExpression expression name =>
      let! receiver := execNode expression in
      match exception receiver, value receiver with
      | None, Some receiver_value =>
          let! v :=
            applyToValue receiver_value (property_callback node name) in
          ret (of_value v)
      | _, _ => ret receiver
      end
  | NumericLiteral text => ret (of_value (mkValue [CNumber (Val text)]))
  | Identifier identifier _ =>
      if decide (identifier = "undefined") then ret (of_value undefined_value)
      else
        let! sc := getScope in
        match lookupVar identifier sc with
        | None => ret (of_exception undefined_value)
        | Some v => ret (mkResult (Some v) None (Some identifier))
        end
  | NullKeyword => ret (of_value (mkValue [CNull]))
  | TrueKeyword => ret (of_value (mkValue [CBoolean (Val true)]))
  | FalseKeyword => ret (of_value (mkValue [CBoolean (Val false)]))
  | OtherSyntax _ =>
      (* [console.log(node)] prints the node on the host console *)
      throw (unsupported node)
  end.

End Evaluator.

(** ** createGlobalScope and compile *)

(** The handler of [console.log]: [() => new Value([{ type: UNDEFINED }])]. *)
Definition console_log_handler (args : list Value) : Value :=
  mkValue [CUndefined].

(** Addresses of the two heap objects of the global scope: the property
    record of [console] and the handler of [log]. *)
Definition console_props_addr : Addr := 1.
Definition console_log_addr : Addr := 2.

(** The native functions of a run: the handler of [console.log] is the only
    function object that [compile] creates. *)
Definition native_handlers : Addr -> list Value -> Value :=
  fun _ => console_log_handler.

(** The record [{ log: ... }] of [console]. *)
Definition console_props : gmap string Value :=
  {[ "log" :=
       mkValue [CFunction (Val true) (Val console_log_addr) Missing] ]}.

Definition createGlobalScope : Scope :=
  mkScope None
    {[ "console" :=
         mkValue [CObject (Val (console_props_addr, console_props))] ]}.

(** [ts.DiagnosticCategory] *)
Inductive DiagnosticCategory : Type :=
| Warning | Error | Suggestion | Message.

Record Diagnostic : Type := mkDiagnostic {
  file : Node;
  start : option Z;
  length' : option Z;
  category : DiagnosticCategory;
  code : string;
  messageText : string
}.

Record CompileResult : Type := mkCompileResult {
  diagnostics : list Diagnostic
}.

(** The body of the [try]: the walk from a global scope with an empty list
    of side effects.  The outcome is kept together with the final state. *)
Definition evaluate (handlers : Addr -> list Value -> Value)
  (globalScope : Scope) (sourceFile : Node) : Res ExecResult * State :=
  execNode handlers sourceFile (mkState globalScope []).

Section Driver.

(** [node.getFullStart()] and [node.getFullWidth()] of the parser's nodes. *)
Variable getFullStart : NodeRef -> Z.
Variable getFullWidth : NodeRef -> Z.

Definition addDiagnostic (sourceFile : Node) (message : string)
  (node : option NodeRef) : Diagnostic :=
  {| file := sourceFile;
     start := getFullStart <$> node;
     length' := getFullWidth <$> node;
     category := Error;
     code := "Z";
     messageText := message |}.

(** The [catch]: a [CompileError] becomes the one diagnostic of the run. *)
Definition caught (sourceFile : Node) (outcome : Res ExecResult)
  : list Diagnostic :=
  match outcome with
  | Ok _ => []
  | Thrown err => [addDiagnostic sourceFile (message err) (node err)]
  end.

(** [compile] started from any global scope and heap of handlers. *)
Definition compile_from (handlers : Addr -> list Value -> Value)
  (globalScope : Scope) (sourceFile : Node) : CompileResult :=
  {| diagnostics :=
       caught sourceFile (fst (evaluate handlers globalScope sourceFile)) |}.

(** [compile], on the tree that [ts.createSourceFile] returns for the code. *)
Definition compile (sourceFile : Node) : CompileResult :=
  compile_from native_handlers createGlobalScope sourceFile.

End Driver.

(** The side effects recorded by the run of [compile]. *)
Definition recorded (sourceFile : Node) : list (list Value) :=
  sideEffects (snd (evaluate native_handlers createGlobalScope sourceFile)).

(** ** Reference notions for the statements below *)

(** The results contributed by the constraints [cs], in order: the callback
    is run on each and the arrays it returns are concatenated. *)
Fixpoint contributions (callback : Callback) (cs : list ValueConstraint)
  : Exec (list ValueConstraint) :=
  match cs with
  | [] => ret []
  | c :: rest =>
      let! here := callback c in
      let! later := contributions callback rest in
      ret (here ++ later)
  end.

(** Step 3 of the merge as the specification words it: a constraint without
    refinement data sets its bucket to generalized, whatever the bucket held. *)
Definition spec_add_result (m : Buckets) (result : ValueConstraint)
  : Value + Buckets :=
  if decide (type_of result = ANY) then inl (mkValue [result])
  else
    match m (type_of result) with
    | Some Generalized => inr m
    | other =>
        if Nat.eqb (length (entries result)) 0
        then inr (set_bucket (type_of result) Generalized m)
        else
          let existing :=
            match other with Some (Entries l) => l | _ => [] end in
          if existsb (same_fields (entries result)) existing then inr m
          else
            inr (set_bucket (type_of result)
                   (Entries (existing ++ [result])) m)
    end.

Fixpoint spec_add_results (m : Buckets) (results : list ValueConstraint)
  : Value + Buckets :=
  match results with
  | [] => inr m
  | result :: rest =>
      match spec_add_result m result with
      | inl v => inl v
      | inr m' => spec_add_results m' rest
      end
  end.

(** The join of the specification on results already concatenated. *)
Definition spec_merge (results : list ValueConstraint) : Value :=
  match spec_add_results no_buckets results with
  | inl v => v
  | inr m => rebuild m
  end.

(** What one result [c] of type [t] does to the bucket of [t]. *)
Definition bucket_step (b : option Bucket) (c : ValueConstraint)
  : option Bucket :=
  match b with
  | Some Generalized => Some Generalized
  | Some (Entries existing) =>
      if Nat.eqb (length (entries c)) 0 then Some Generalized
      else if negb (existsb (same_fields (entries c)) existing)
      then Some (Entries (existing ++ [c]))
      else Some (Entries existing)
  | None => Some (Entries [c])
  end.

(** A bucket of type [t] as the join builds it: its entries have type [t]
    and, filed again one by one into an empty bucket, give the same list. *)
Definition bucket_ok (t : ValueType) (b : option Bucket) : Prop :=
  match b with
  | None => True
  | Some Generalized =>
      t <> ANY /\ exists g, generic t = Some g /\ type_of g = t
  | Some (Entries l) =>
      t <> ANY
      /\ Forall (fun c => type_of c = t) l
      /\ fold_left bucket_step l None = Some (Entries l)
  end.

(** The bucket obtained by filing the constraints of a bucket again. *)
Definition refiled (t : ValueType) (b : option Bucket) : option Bucket :=
  match b with
  | Some Generalized =>
      match generic t with
      | Some g => Some (Entries [g])
      | None => None
      end
  | _ => b
  end.

(** [b], filed after [a] in the bucket of their type, has refinement data
    and is not a duplicate of [a]. *)
Definition distinct_after (a b : ValueConstraint) : Prop :=
  entries b <> [] /\ same_fields (entries b) a = false.

(** The entries of a bucket are pairwise distinct in that sense. *)
Definition bucket_distinct (b : option Bucket) : Prop :=
  match b with
  | Some (Entries l) => StronglySorted distinct_after l
  | _ => True
  end.


(** The scopes of a chain, the calling scope first and the root last. *)
Fixpoint chain (scope : Scope) : list (gmap string Value) :=
  match scope with
  | mkScope (Some p) b => b :: chain p
  | mkScope None b => [b]
  end.

(** The chain [s'] has the scopes of [s], each binding at least the names
    it bound in [s]. *)
Definition scope_grows (s s' : Scope) : Prop :=
  Forall2 (fun b b' : gmap string Value => dom b ⊆ dom b') (chain s) (chain s').

(** The state [s'] extends [s]: the side effects of [s] are the first ones
    of [s'], and the scope chain has grown. *)
Definition state_grows (s s' : State) : Prop :=
  sideEffects s `prefix_of` sideEffects s'
  /\ scope_grows (scope s) (scope s').

(** The four forms of a result: [{}], [{ exception }] holding the Undefined
    value, [{ value }], and [{ identifier, value }] where the value is what
    the scope [sc] binds to the identifier. *)
Definition result_shape (r : ExecResult) (sc : Scope) : Prop :=
  r = no_result
  \/ r = of_exception undefined_value
  \/ (exists v, r = of_value v)
  \/ (exists x v, r = mkResult (Some v) None (Some x)
                  /\ lookupVar x sc = Some v).

(** The failures the evaluator raises. *)
Definition known_failure (err : CompileError) : Prop :=
  (exists n, err = unsupported n)
  \/ (exists b, err = mkCompileError "destructuring is not supported"
                        (Some (AtName b)))
  \/ (exists e args,
         err = mkCompileError "Called value may not be a function"
                 (Some (AtNode (CallExpression e args))))
  \/ (exists e name,
         err = mkCompileError "Only objects support property access"
                 (Some (AtNode (PropertyAccessExpression e name)))).

(** ** The loops of the evaluator, named *)

(** The loop over the arguments of a call, then the join on the callee. *)
Definition call_arguments (handlers : Addr -> list Value -> Value)
  (callee_value : Value) (call : Node)
  : list Node -> list Value -> Exec ExecResult :=
  fix run (l : list Node) (args : list Value) : Exec ExecResult :=
    match l with
    | [] =>
        let! v :=
          applyToValue callee_value (call_callback handlers call args) in
        ret (of_value v)
    | arg :: rest =>
        let! result := execNode handlers arg in
        match exception result, value result with
        | None, Some v => run rest (args ++ [v])
        | _, _ => ret result
        end
    end.

(** The loop over the declarations of a variable statement. *)
Definition declare_all (handlers : Addr -> list Value -> Value)
  : list (BindingName * option Node) -> Exec ExecResult :=
  fix run (l : list (BindingName * option Node)) : Exec ExecResult :=
    match l with
    | [] => ret no_result
    | (declared, initializer) :: rest =>
        match declared with
        | BindingIdentifier name =>
            match initializer with
            | Some init =>
                let! result := execNode handlers init in
                match exception result with
                | Some _ => ret result
                | None =>
                    let! _ :=
                      modifyScope
                        (bind_here name
                           (default undefined_value (value result))) in
                    run rest
                end
            | None =>
                let! _ := modifyScope (bind_here name undefined_value) in
                run rest
            end
        | _ =>
            throw (mkCompileError "destructuring is not supported"
                     (Some (AtName declared)))
        end
    end.


(** The declarations [l] are carried out one after the other from [s] to
    [s'], no initializer resulting in an exception. *)
Inductive declares (handlers : Addr -> list Value -> Value)
  : list (BindingName * option Node) -> State -> State -> Prop :=
| declares_nil s : declares handlers [] s s
| declares_initialized name init rest s r s' s'' :
    execNode handlers init s = (Ok r, s') ->
    exception r = None ->
    declares handlers rest
      (mkState (bind_here name (default undefined_value (value r)) (scope s'))
         (sideEffects s')) s'' ->
    declares handlers ((BindingIdentifier name, Some init) :: rest) s s''
| declares_bare name rest s s'' :
    declares handlers rest
      (mkState (bind_here name undefined_value (scope s)) (sideEffects s))
      s'' ->
    declares handlers ((BindingIdentifier name, None) :: rest) s s''.


Ltac step_bind H :=
  unfold bind in H at 1;
  match type of H with
  | context [match ?m ?s with _ => _ end] =>
      let r := fresh "r" in
      let e := fresh "e" in
      let s1 := fresh "s" in
      let E := fresh "E" in
      destruct (m s) as [[r|e] s1] eqn:E; [|discriminate H]
  end.

(** ** Unsupported constructs in evaluation order *)


(** The arguments [l] evaluate one after the other from [s] to [s'], to the
    values [vs]. *)
Inductive evaluates_to (handlers : Addr -> list Value -> Value)
  : list Node -> State -> list Value -> State -> Prop :=
| evaluates_to_nil s : evaluates_to handlers [] s [] s
| evaluates_to_cons arg rest s r v s' vs s'' :
    execNode handlers arg s = (Ok r, s') ->
    exception r = None ->
    value r = Some v ->
    evaluates_to handlers rest s' vs s'' ->
    evaluates_to handlers (arg :: rest) s (v :: vs) s''.

Definition not_a_function (call : Node) : CompileError :=
  mkCompileError "Called value may not be a function" (Some (AtNode call)).




(** ** Programs used below *)

Definition ident (name : string) : Node := Identifier name name.

(** [console.log(1);] *)
Definition console_log_1_call : Node :=
  CallExpression (PropertyAccessExpression (ident "console") "log")
    [NumericLiteral 1%float].

Definition console_log_1 : Node :=
  SourceFile [ExpressionStatement console_log_1_call].


Definition let_x_1 : Node :=
  VariableStatement NodeFlags_Let
    [(BindingIdentifier "x", Some (NumericLiteral 1%float))].

Definition after_log_1 : State :=
  mkState createGlobalScope [[mkValue [CNumber (Val 1%float)]]].



(** A global scope in which [f] may be the logging function or a number,
    and the program [f(1);]. *)
Definition mixed_callee : Value :=
  mkValue [CFunction (Val true) (Val console_log_addr) Missing;
           CNumber (Val 0%float)].

Definition mixed_scope : Scope := mkScope None {[ "f" := mixed_callee ]}.

Definition call_f_1 : Node := CallExpression (ident "f") [NumericLiteral 1%float].

(** The logging function first, then a function without handler, then a
    number; and a number first, then the logging function. *)
Definition any_before_number : Value :=
  mkValue [CFunction (Val true) (Val console_log_addr) Missing;
           CFunction Missing Missing Missing;
           CNumber (Val 0%float)].

Definition number_first : Value :=
  mkValue [CNumber (Val 0%float);
           CFunction (Val true) (Val console_log_addr) Missing;
           CNumber (Val 0%float)].

Definition program_f_1 : Node := SourceFile [ExpressionStatement call_f_1].

(** * Properties *)

(** ** The join *)

(** [all_types] lists the types by ascending enum value, the order in which
    [Object.entries] lists the integer keys of [constraintsByType]. *)
Lemma all_types_ascending :
  map ValueType_code all_types = [1; 2; 3; 4; 5; 6; 7; 8; 9; 10; 11]%Z.
Proof. reflexivity. Qed.

Lemma type_of_ANY c : type_of c = ANY <-> c = CAny.
Proof. destruct c; simpl; split; intros H; first [done | discriminate]. Qed.

Lemma any_in_or_not (rs : list ValueConstraint) : CAny ∈ rs \/ CAny ∉ rs.
Proof.
  induction rs as [|r rs [IH|IH]].
  - right. apply not_elem_of_nil.
  - left. by apply elem_of_cons; right.
  - destruct (decide (type_of r = ANY)) as [Hr|Hr].
    + apply type_of_ANY in Hr as ->. left. by apply elem_of_cons; left.
    + right. apply not_elem_of_cons. split; [|done].
      intros <-. by apply Hr.
Qed.

Lemma add_result_other m c :
  c <> CAny -> exists m', add_result m c = inr m'.
Proof.
  intros Hc. unfold add_result.
  destruct (decide (type_of c = ANY)) as [Ht|Ht].
  - apply type_of_ANY in Ht. contradiction.
  - destruct (m (type_of c)) as [[|existing]|]; eauto.
    cbv zeta. destruct (Nat.eqb _ 0); eauto.
    destruct (negb _); eauto.
Qed.

Lemma add_results_without_any m rs :
  CAny ∉ rs -> exists m', add_results m rs = inr m'.
Proof.
  revert m. induction rs as [|r rs IH]; intros m Hnot; simpl.
  - eauto.
  - apply not_elem_of_cons in Hnot as [Hr Hrs].
    destruct (add_result_other m r) as [m' ->]; [congruence|].
    apply IH, Hrs.
Qed.

Lemma add_results_with_any m rs :
  CAny ∈ rs -> add_results m rs = inl (mkValue [CAny]).
Proof.
  revert m. induction rs as [|r rs IH]; intros m Hin; simpl.
  - by apply elem_of_nil in Hin.
  - destruct (decide (type_of r = ANY)) as [Hr|Hr].
    + apply type_of_ANY in Hr as ->. reflexivity.
    + rewrite type_of_ANY in Hr.
      destruct (add_result_other m r Hr) as [m' ->].
      apply IH. apply elem_of_cons in Hin as [Heq|Hin]; [congruence|done].
Qed.

Lemma add_results_app m rs1 rs2 :
  add_results m (rs1 ++ rs2) =
  match add_results m rs1 with
  | inl v => inl v
  | inr m' => add_results m' rs2
  end.
Proof.
  revert m. induction rs1 as [|r rs1 IH]; intros m; simpl.
  - reflexivity.
  - destruct (add_result m r); [reflexivity | apply IH].
Qed.

(** Running the loop on a prefix whose contributions hold no Any leaves a
    table, and the loop goes on with the rest from there. *)
Lemma apply_loop_prefix callback pre rest m s rs s1 :
  contributions callback pre s = (Ok rs, s1) ->
  CAny ∉ rs ->
  exists m', add_results m rs = inr m' /\
    apply_loop callback (pre ++ rest) m s = apply_loop callback rest m' s1.
Proof.
  revert m s rs. induction pre as [|c pre IH]; intros m s rs Hrun Hnot.
  - injection Hrun as <- <-. simpl. eauto.
  - simpl in Hrun. unfold bind in Hrun.
    destruct (callback c s) as [[here|e] s0] eqn:Hc; [|discriminate].
    destruct (contributions callback pre s0) as [[later|e] s0'] eqn:Hl;
      [|discriminate].
    injection Hrun as <- <-.
    rewrite not_elem_of_app in Hnot. destruct Hnot as [Hh Hl'].
    destruct (add_results_without_any m here Hh) as [m1 Hm1].
    destruct (IH m1 s0 later Hl Hl') as (m' & Hm' & Hloop).
    exists m'. split.
    + rewrite add_results_app, Hm1. exact Hm'.
    + simpl. unfold bind. rewrite Hc, Hm1. exact Hloop.
Qed.

(** C3.  In a join, let the callback run without failure on the constraints
    [pre], contributing no Any, and then contribute a list holding Any on the
    next constraint [c].  Then the join returns the value whose only
    constraint is Any, whatever was accumulated from [pre], and it stops
    there: the state is the one the callback left on [c], for every list
    [post] of constraints still pending. *)
Theorem applyToValue_any_short_circuit
  (callback : Callback) (pre post : list ValueConstraint)
  (c : ValueConstraint) (s s1 s2 : State) (before here : list ValueConstraint) :
  contributions callback pre s = (Ok before, s1) ->
  CAny ∉ before ->
  callback c s1 = (Ok here, s2) ->
  CAny ∈ here ->
  applyToValue (mkValue (pre ++ c :: post)) callback s
  = (Ok (mkValue [CAny]), s2).
Proof.
  intros Hpre Hnot Hc Hin. unfold applyToValue. simpl constraints.
  destruct (apply_loop_prefix callback pre (c :: post) no_buckets s before s1
              Hpre Hnot) as (m' & _ & ->).
  simpl. unfold bind. rewrite Hc.
  rewrite (add_results_with_any m' here Hin). reflexivity.
Qed.

Lemma applyToValue_any_short_circuit_witness :
  applyToValue
    (mkValue [CNumber (Val 1%float); CNull; CBoolean (Val true)])
    (pure_callback
       (fun c => match c with
                 | CNull => [CUndefined; CAny; CNumber (Val 2%float)]
                 | _ => [c]
                 end))
    (mkState createGlobalScope [])
  = (Ok (mkValue [CAny]), mkState createGlobalScope []).
Proof.
  apply (applyToValue_any_short_circuit _ [CNumber (Val 1%float)]
           [CBoolean (Val true)] CNull _ (mkState createGlobalScope [])
           _ [CNumber (Val 1%float)] [CUndefined; CAny; CNumber (Val 2%float)]).
  - reflexivity.
  - intros H. apply list_elem_of_singleton in H. discriminate.
  - reflexivity.
  - apply elem_of_cons. right. apply elem_of_cons. left. reflexivity.
Defined.

(** With a transform that has no effect: as soon as one constraint of the
    value contributes Any, the join is the value [Any]. *)
Lemma pure_join_any f v s :
  (exists c, c ∈ constraints v /\ CAny ∈ f c) ->
  applyToValue v (pure_callback f) s = (Ok (mkValue [CAny]), s).
Proof.
  destruct v as [cs]. simpl. unfold applyToValue. simpl.
  generalize no_buckets.
  induction cs as [|c cs IH]; intros m (c0 & Hin & Hany).
  - by apply elem_of_nil in Hin.
  - simpl. unfold bind, pure_callback, ret.
    destruct (any_in_or_not (f c)) as [Hc|Hc].
    + by rewrite (add_results_with_any m (f c) Hc).
    + destruct (add_results_without_any m (f c) Hc) as [m' ->].
      apply IH. exists c0. split; [|done].
      apply elem_of_cons in Hin as [->|Hin]; [contradiction|done].
Qed.

(** C1.  The code departs from the claim: when the payload-free Number
    constraint is the first Number constraint of the join, its bucket becomes
    the one-element list holding it and is not marked generalized, so the
    specific Number constraint contributed after it is appended; the merge as
    the specification words it returns the generic constraint alone. *)
Theorem applyToValue_generic_first_keeps_later_specific (x : float) (s : State) :
  applyToValue
    (mkValue [CBoolean (Val true); CBoolean (Val false)])
    (pure_callback
       (fun c => match c with
                 | CBoolean (Val true) => [CNumber Missing]
                 | _ => [CNumber (Val x)]
                 end)) s
  = (Ok (mkValue [CNumber Missing; CNumber (Val x)]), s)
  /\ spec_merge [CNumber Missing; CNumber (Val x)] = mkValue [CNumber Missing].
Proof. split; reflexivity. Qed.

(** The sibling path: once the bucket exists, a payload-free constraint does
    mark it generalized, and later specific constraints are dropped. *)
Lemma applyToValue_generic_second_generalizes (x y : float) (s : State) :
  applyToValue
    (mkValue [CNumber (Val x); CNumber Missing; CNumber (Val y)])
    (pure_callback identity_transform) s
  = (Ok (mkValue [CNumber Missing]), s).
Proof. reflexivity. Qed.

(** C4.  The code departs from the claim: the identity join of the value
    made of the generic Boolean constraint followed by a Boolean literal
    returns both constraints, where the specification's merge drops the
    literal that comes after the generalization. *)
Theorem identity_join_keeps_specific_after_generic (b : bool) (s : State) :
  applyToValue (mkValue [CBoolean Missing; CBoolean (Val b)])
    (pure_callback identity_transform) s
  = (Ok (mkValue [CBoolean Missing; CBoolean (Val b)]), s)
  /\ spec_merge [CBoolean Missing; CBoolean (Val b)]
     = mkValue [CBoolean Missing].
Proof. split; reflexivity. Qed.

(** ** Calls *)

(** C2, as the claim states it, fails: a Function constraint that holds a
    node reference and no handler contributes the Any constraint, not an
    empty list, and the call then evaluates to the value [Any]. *)
Lemma call_node_only_contributes_any :
  let constraint := CFunction Missing Missing (Val 7) in
  let call := CallExpression (ident "f") [] in
  let s := mkState (mkScope None {[ "f" := mkValue [constraint] ]}) [] in
  fst (call_callback native_handlers call [] constraint s) = Ok [CAny]
  /\ fst (call_callback native_handlers call [] constraint s) <> Ok []
  /\ fst (execNode native_handlers call s) = Ok (of_value (mkValue [CAny])).
Proof.
  cbv zeta. split; [reflexivity|]. split; [discriminate|].
  vm_compute. reflexivity.
Qed.

(** C2, amended.  A Function constraint without a native handler (the key
    is absent or holds undefined) contributes exactly the Any constraint and
    leaves the state as it is, whether or not it holds a node reference. *)
Theorem call_without_handler_contributes_any
  (handlers : Addr -> list Value -> Value) (call : Node) (args : list Value)
  (hasSideEffects : Opt bool) (node : Opt Addr) (s : State) :
  call_callback handlers call args (CFunction hasSideEffects Missing node) s
  = (Ok [CAny], s)
  /\ call_callback handlers call args (CFunction hasSideEffects Undef node) s
     = (Ok [CAny], s).
Proof. split; reflexivity. Qed.

(** ** Property access *)

(** ** The scope chain *)

Lemma Scope_chain_ind (P : Scope -> Prop) :
  (forall b, P (mkScope None b)) ->
  (forall p b, P p -> P (mkScope (Some p) b)) ->
  forall s, P s.
Proof.
  intros Hroot Hchild. fix IH 1. intros [[p|] b].
  - apply Hchild, IH.
  - apply Hroot.
Qed.

(** C8.  [setVar] changes one scope of the chain, at some index [i]: no
    scope nearer to the calling scope binds the name; the scope at [i] binds
    it already or is the root; its map is rebound at the name and every other
    map of the chain, and the shape of the chain, stay as they were.  With
    three scopes of which the two inner ones lack the name, the call from the
    innermost one rebinds the root and leaves the inner maps alone. *)
Theorem setVar_rebinds_nearest_or_root (name : string) (v : Value) :
  (forall s, exists i b,
      chain s !! i = Some b
      /\ (forall j b', j < i -> chain s !! j = Some b' -> b' !! name = None)
      /\ (is_Some (b !! name) \/ S i = length (chain s))
      /\ chain (setVar name v s) = <[i := <[name := v]> b]> (chain s)
      /\ (forall j, j <> i -> chain (setVar name v s) !! j = chain s !! j))
  /\ (forall b0 b1 b2,
        b1 !! name = None -> b2 !! name = None ->
        setVar name v
          (mkScope (Some (mkScope (Some (mkScope None b0)) b1)) b2)
        = mkScope (Some (mkScope (Some (mkScope None (<[name := v]> b0))) b1))
            b2).
Proof.
  split.
  - induction s as [b | p b IH] using Scope_chain_ind.
    + exists 0, b. simpl. repeat split; try done.
      * intros j b' Hj. lia.
      * by right.
      * intros [|j] Hj; [done|reflexivity].
    + simpl. case_bool_decide as Hb.
      * exists 0, b. simpl. repeat split; try done.
        -- intros j b' Hj. lia.
        -- by left.
        -- intros [|j] Hj; [done|reflexivity].
      * destruct IH as (i & b' & Hi & Hnear & Hhas & Heq & Hframe).
        exists (S i), b'. simpl. repeat split.
        -- exact Hi.
        -- intros [|j] b'' Hj Hlook; simpl in Hlook.
           ++ injection Hlook as <-. by apply eq_None_not_Some.
           ++ apply (Hnear j); [lia|done].
        -- destruct Hhas as [Hhas|Hlen]; [by left|right; congruence].
        -- by rewrite Heq.
        -- intros [|j] Hj; simpl; [done|]. apply Hframe. congruence.
  - intros b0 b1 b2 H1 H2. simpl.
    rewrite !bool_decide_eq_false_2; [done| |].
    + rewrite H1. by apply is_Some_None.
    + rewrite H2. by apply is_Some_None.
Qed.

Lemma setVar_rebinds_nearest_or_root_witness :
  let v1 := mkValue [CNumber (Val 1%float)] in
  let v2 := mkValue [CNumber (Val 2%float)] in
  let S0 := mkScope None {[ "x" := v1 ]} in
  let S1 := mkScope (Some S0) {[ "y" := v1 ]} in
  let S2 := mkScope (Some S1) ∅ in
  setVar "x" v2 S2
  = mkScope (Some (mkScope (Some (mkScope None (<[ "x" := v2 ]> {[ "x" := v1 ]})))
                     {[ "y" := v1 ]})) ∅.
Proof.
  cbv zeta.
  apply (proj2 (setVar_rebinds_nearest_or_root "x"
                  (mkValue [CNumber (Val 2%float)]))).
  - vm_compute. reflexivity.
  - vm_compute. reflexivity.
Defined.

(** ** The evaluator *)

(** Induction on syntax trees, with the hypothesis for every child held in a
    list. *)
Lemma Node_deep_ind (P : Node -> Prop) :
  (forall l, Forall P l -> P (SourceFile l)) ->
  (forall flags ds,
      Forall (fun d => forall init, snd d = Some init -> P init) ds ->
      P (VariableStatement flags ds)) ->
  (forall e args, P e -> Forall P args -> P (CallExpression e args)) ->
  (forall e, P e -> P (ExpressionStatement e)) ->
  (forall l op r, P l -> P r -> P (BinaryExpression l op r)) ->
  (forall e name, P e -> P (PropertyAccessExpression e name)) ->
  (forall x, P (NumericLiteral x)) ->
  (forall t e, P (Identifier t e)) ->
  P NullKeyword -> P TrueKeyword -> P FalseKeyword ->
  (forall k, P (OtherSyntax k)) ->
  forall n, P n.
Proof.
  intros HS HV HC HE HB HP HN HI Hnull Htrue Hfalse HO.
  fix IH 1. intros [l|flags ds|e args|e|l op r|e name|x|t e| | | |k].
  - apply HS.
    refine ((fix go (l : list Node) : Forall P l :=
               match l with
               | [] => List.Forall_nil _
               | x :: xs => List.Forall_cons _ x xs (IH x) (go xs)
               end) l).
  - apply HV.
    refine ((fix go (ds : list (BindingName * option Node))
               : Forall (fun d => forall init, snd d = Some init -> P init) ds :=
               match ds with
               | [] => List.Forall_nil _
               | (b, o) :: xs => List.Forall_cons _ (b, o) xs _ (go xs)
               end) ds).
    destruct o as [init|]; simpl; intros init' Heq.
    + injection Heq as <-. apply IH.
    + discriminate.
  - apply HC; [apply IH|].
    refine ((fix go (l : list Node) : Forall P l :=
               match l with
               | [] => List.Forall_nil _
               | x :: xs => List.Forall_cons _ x xs (IH x) (go xs)
               end) args).
  - apply HE, IH.
  - apply HB; apply IH.
  - apply HP, IH.
  - apply HN.
  - apply HI.
  - apply Hnull.
  - apply Htrue.
  - apply Hfalse.
  - apply HO.
Qed.

Lemma execNode_SourceFile_cons handlers statement rest s :
  execNode handlers (SourceFile (statement :: rest)) s =
  match execNode handlers statement s with
  | (Ok r, s') =>
      match exception r with
      | Some _ => (Ok no_result, s')
      | None => execNode handlers (SourceFile rest) s'
      end
  | (Thrown e, s') => (Thrown e, s')
  end.
Proof.
  simpl. unfold bind.
  destruct (execNode handlers statement s) as [[r|e] s']; [|reflexivity].
  destruct (exception r); reflexivity.
Qed.


Lemma call_arguments_nil handlers callee_value call args s :
  call_arguments handlers callee_value call [] args s =
  match applyToValue callee_value (call_callback handlers call args) s with
  | (Ok v, s') => (Ok (of_value v), s')
  | (Thrown err, s') => (Thrown err, s')
  end.
Proof. reflexivity. Qed.

Lemma call_arguments_cons handlers callee_value call arg rest args s :
  call_arguments handlers callee_value call (arg :: rest) args s =
  match execNode handlers arg s with
  | (Ok result, s') =>
      match exception result, value result with
      | None, Some v =>
          call_arguments handlers callee_value call rest (args ++ [v]) s'
      | _, _ => (Ok result, s')
      end
  | (Thrown err, s') => (Thrown err, s')
  end.
Proof.
  simpl. unfold bind at 1.
  destruct (execNode handlers arg s) as [[result|err] s']; [|reflexivity].
  destruct (exception result); [reflexivity|].
  destruct (value result); reflexivity.
Qed.

Lemma execNode_CallExpression handlers e arguments s :
  execNode handlers (CallExpression e arguments) s =
  match execNode handlers e s with
  | (Ok callee, s') =>
      match exception callee, value callee with
      | None, Some callee_value =>
          call_arguments handlers callee_value (CallExpression e arguments)
            arguments [] s'
      | _, _ => (Ok callee, s')
      end
  | (Thrown err, s') => (Thrown err, s')
  end.
Proof.
  simpl. unfold bind at 1.
  destruct (execNode handlers e s) as [[callee|err] s']; [|reflexivity].
  destruct (exception callee); [reflexivity|].
  destruct (value callee); reflexivity.
Qed.

(** Every exception that the evaluator returns is the value
    [new Value([{ type: UNDEFINED }])]. *)
Lemma execNode_exception_undefined handlers node :
  forall s r s', execNode handlers node s = (Ok r, s') ->
  forall v, exception r = Some v -> v = undefined_value.
Proof.
  induction node as
    [l IH|flags ds IH|e args IHe IHargs|e IHe|lhs op rhs _ IHr|e name IHe
    |x|t e| | | |k] using Node_deep_ind; intros s r s' H v Hv.
  - exfalso. revert s H. induction IH as [|st l _ _ IHl]; intros s H.
    + injection H as <- <-. discriminate.
    + rewrite execNode_SourceFile_cons in H.
      destruct (execNode handlers st s) as [[r0|e0] s0]; [|discriminate].
      destruct (exception r0).
      * injection H as <- <-. discriminate.
      * by apply (IHl s0).
  - simpl in H.
    destruct (negb _ || negb _); [discriminate|].
    revert s H. induction IH as [|[b o] ds Hd _ IHds]; intros s H.
    + injection H as <- <-. discriminate.
    + destruct b as [name| |]; [|discriminate..].
      destruct o as [init|].
      * step_bind H. destruct (exception r0) eqn:Hexc.
        -- injection H as <- <-. rewrite Hexc in Hv. injection Hv as <-.
           by apply (Hd init eq_refl s r0 s0).
        -- step_bind H. by apply (IHds s1).
      * step_bind H. by apply (IHds s0).
  - rewrite execNode_CallExpression in H.
    destruct (execNode handlers e s) as [[r0|e0] s0] eqn:E; [|discriminate].
    destruct (exception r0) eqn:Hexc.
    { injection H as <- <-. by apply (IHe s r0 s0). }
    destruct (value r0) as [callee|] eqn:Hval.
    2:{ injection H as <- <-. congruence. }
    clear E. revert s0 H.
    generalize (CallExpression e args) at 1. generalize (@nil Value).
    induction IHargs as [|arg args Harg _ IHrest]; intros acc call s0 H.
    + rewrite call_arguments_nil in H.
      destruct (applyToValue _ _ _) as [[v0|e0] s1]; [|discriminate].
      injection H as <- <-. discriminate.
    + rewrite call_arguments_cons in H.
      destruct (execNode handlers arg s0) as [[r1|e1] s1] eqn:E1;
        [|discriminate].
      destruct (exception r1) eqn:Hexc1.
      { injection H as <- <-. by apply (Harg s0 r1 s1). }
      destruct (value r1) eqn:Hval1.
      2:{ injection H as <- <-. congruence. }
      by apply (IHrest (acc ++ [v0]) call s1).
  - simpl in H. by apply (IHe s r s').
  - simpl in H. destruct op; [|discriminate].
    destruct lhs; try discriminate.
    step_bind H. unfold getScope in E. injection E as <- <-.
    destruct (lookupVar _ _).
    + step_bind H. destruct (exception r0) eqn:Hexc.
      { injection H as <- <-. by apply (IHr s r0 s0). }
      destruct (value r0).
      * step_bind H. injection H as <- <-. congruence.
      * injection H as <- <-. congruence.
    + injection H as <- <-. simpl in Hv. congruence.
  - simpl in H. step_bind H.
    destruct (exception r0) eqn:Hexc.
    { injection H as <- <-. by apply (IHe s r0 s0). }
    destruct (value r0).
    + step_bind H. injection H as <- <-. discriminate.
    + injection H as <- <-. congruence.
  - injection H as <- <-. discriminate.
  - simpl in H. destruct (decide _).
    + injection H as <- <-. discriminate.
    + step_bind H. unfold getScope in E. injection E as <- <-.
      destruct (lookupVar _ _); injection H as <- <-; simpl in Hv; congruence.
  - injection H as <- <-. discriminate.
  - injection H as <- <-. discriminate.
  - injection H as <- <-. discriminate.
  - discriminate.
Qed.

(** ** The driver *)

Section DriverFacts.

Variable getFullStart : NodeRef -> Z.
Variable getFullWidth : NodeRef -> Z.

(** C6.  The run of [console.log(1);]: no diagnostic; one recorded side
    effect, whose argument list is the one value holding the Number
    constraint of literal 1; the call evaluates to the value holding the
    Undefined constraint, which is what the handler returns on every
    argument list. *)
Theorem console_log_1_run :
  diagnostics (compile getFullStart getFullWidth console_log_1) = []
  /\ recorded console_log_1 = [[mkValue [CNumber (Val 1%float)]]]
  /\ fst (execNode native_handlers console_log_1_call
            (mkState createGlobalScope []))
     = Ok (of_value (mkValue [CUndefined]))
  /\ (forall args,
         native_handlers console_log_addr args = mkValue [CUndefined]).
Proof.
  split; [vm_compute; reflexivity|].
  split; [vm_compute; reflexivity|].
  split; [vm_compute; reflexivity|].
  intros args. reflexivity.
Qed.

End DriverFacts.

(** ** Side effects and failures *)

(** The callback of a call leaves the scope alone and appends to the side
    effects at most one entry, the argument list. *)
Lemma call_callback_effects handlers call args c s res s' :
  call_callback handlers call args c s = (res, s') ->
  scope s' = scope s
  /\ exists k, sideEffects s' = sideEffects s ++ repeat args k.
Proof.
  unfold call_callback. intros H.
  destruct c as [| | | | | |hse h nd];
    try (injection H as <- <-; split; [done|exists 0; simpl; by rewrite app_nil_r]).
  destruct (defined h).
  - unfold bind in H. destruct (truthy hse); simpl in H.
    + injection H as <- <-. split; [done|]. by exists 1.
    + injection H as <- <-. split; [done|]. exists 0. simpl.
      by rewrite app_nil_r.
  - injection H as <- <-. split; [done|]. exists 0. simpl.
    by rewrite app_nil_r.
Qed.

Lemma apply_loop_call_effects handlers call args cs m s res s' :
  apply_loop (call_callback handlers call args) cs m s = (res, s') ->
  scope s' = scope s
  /\ exists k, sideEffects s' = sideEffects s ++ repeat args k.
Proof.
  revert m s. induction cs as [|c cs IH]; intros m s H; simpl in H.
  - injection H as <- <-. split; [done|]. exists 0. simpl. by rewrite app_nil_r.
  - unfold bind in H.
    destruct (call_callback handlers call args c s) as [[rs|e] s1] eqn:Hc.
    + apply call_callback_effects in Hc as [Hsc [k1 Hk1]].
      destruct (add_results m rs) as [v|m'].
      * injection H as <- <-. eauto.
      * apply IH in H as [Hsc' [k2 Hk2]]. split; [congruence|].
        exists (k1 + k2). by rewrite Hk2, Hk1, repeat_app, app_assoc.
    + injection H as <- <-.
      by apply call_callback_effects in Hc.
Qed.

(** A failure of the join of a call is the failure on a constraint that is
    not a function. *)
Lemma apply_loop_call_failure handlers call args cs m s err s' :
  apply_loop (call_callback handlers call args) cs m s = (Thrown err, s') ->
  err = mkCompileError "Called value may not be a function"
          (Some (AtNode call))
  /\ exists c, c ∈ cs /\ type_of c <> FUNCTION.
Proof.
  revert m s. induction cs as [|c cs IH]; intros m s H; simpl in H.
  - discriminate.
  - unfold bind in H.
    destruct (call_callback handlers call args c s) as [[rs|e] s1] eqn:Hc.
    + destruct (add_results m rs) as [v|m']; [discriminate|].
      apply IH in H as [-> (c' & Hin & Hty)]. split; [done|].
      exists c'. split; [|done]. by apply elem_of_cons; right.
    + injection H as <- <-. unfold call_callback in Hc.
      destruct c as [| | | | | |hse h nd];
        try (injection Hc as <- <-; split; [done|];
             eexists; split; [by apply elem_of_cons; left|done]).
      destruct (defined h); [|discriminate].
      unfold bind in Hc. destruct (truthy hse); discriminate.
Qed.

Lemma call_callback_function_ok handlers call args c s err s' :
  type_of c = FUNCTION ->
  call_callback handlers call args c s <> (Thrown err, s').
Proof.
  destruct c as [| | | | | |hse h nd]; try discriminate. intros _.
  unfold call_callback. destruct (defined h); [|discriminate].
  unfold bind. destruct (truthy hse); discriminate.
Qed.

Lemma apply_loop_call_after_side_effect
  handlers call args pre post hse h nd m s err s' :
  truthy hse = true ->
  Forall (fun c => type_of c = FUNCTION) pre ->
  apply_loop (call_callback handlers call args)
    (pre ++ CFunction hse (Val h) nd :: post) m s = (Thrown err, s') ->
  exists k, sideEffects s' = sideEffects s ++ repeat args (S k).
Proof.
  intros Hse Hpre. revert m s.
  induction Hpre as [|c pre Hc _ IH]; intros m s H; simpl in H.
  - unfold bind in H. rewrite Hse in H. simpl in H.
    destruct (add_results m _) as [v|m']; [discriminate|].
    apply apply_loop_call_effects in H as [_ [k Hk]].
    exists k. rewrite Hk. simpl. by rewrite <- app_assoc.
  - unfold bind in H.
    destruct (call_callback handlers call args c s) as [[rs|e] s1] eqn:Hcb.
    + apply call_callback_effects in Hcb as [_ [k1 Hk1]].
      destruct (add_results m rs) as [v|m']; [discriminate|].
      apply IH in H as [k2 Hk2]. exists (k1 + k2).
      rewrite Hk2, Hk1, <- app_assoc, <- repeat_app.
      by rewrite Nat.add_succ_r.
    + by apply call_callback_function_ok in Hcb.
Qed.

(** ** Reads of unbound identifiers *)

Lemma execNode_VariableStatement handlers flags ds s :
  Z.land flags NodeFlags_Let = 0%Z ->
  Z.land flags NodeFlags_Const = 0%Z ->
  execNode handlers (VariableStatement flags ds) s = declare_all handlers ds s.
Proof. intros Hl Hc. simpl. rewrite Hl, Hc. reflexivity. Qed.


Lemma declares_then handlers before rest s s1 :
  declares handlers before s s1 ->
  declare_all handlers (before ++ rest) s = declare_all handlers rest s1.
Proof.
  induction 1 as [s | name init before s r s' s'' Hexec Hexc _ IH
                 | name before s s'' _ IH].
  - reflexivity.
  - rewrite <- IH. simpl. unfold bind at 1. rewrite Hexec, Hexc. reflexivity.
  - rewrite <- IH. reflexivity.
Qed.






(** ** The identity join is idempotent *)

Lemma add_result_step m c :
  type_of c <> ANY ->
  exists m', add_result m c = inr m'
    /\ forall t, m' t = if decide (t = type_of c)
                        then bucket_step (m t) c else m t.
Proof.
  intros Hc. unfold add_result.
  destruct (decide (type_of c = ANY)) as [|_]; [contradiction|].
  destruct (m (type_of c)) as [[|existing]|] eqn:Hm; cbv zeta.
  - exists m. split; [done|]. intros t. case_decide as Ht; [|done].
    subst t. by rewrite Hm.
  - destruct (Nat.eqb (length (entries c)) 0) eqn:Hlen;
      [|destruct (negb _) eqn:Hsome]; eexists; (split; [reflexivity|]);
      intros t; unfold set_bucket; case_decide as Ht; try done;
      subst t; rewrite Hm; simpl; rewrite Hlen; try done; by rewrite Hsome.
  - eexists. split; [reflexivity|]. intros t. unfold set_bucket.
    case_decide as Ht; [|done]. subst t. by rewrite Hm.
Qed.

Lemma add_results_same_type m l t :
  Forall (fun c => type_of c = t) l -> t <> ANY ->
  exists m', add_results m l = inr m'
    /\ m' t = fold_left bucket_step l (m t)
    /\ forall t', t' <> t -> m' t' = m t'.
Proof.
  intros Hl Ht. revert m. induction Hl as [|c l Hc _ IH]; intros m; simpl.
  - by exists m.
  - destruct (add_result_step m c) as (m1 & -> & Hm1); [congruence|].
    destruct (IH m1) as (m' & Hm' & Hfold & Hframe).
    exists m'. split; [done|]. split.
    + rewrite Hfold, Hm1, Hc. by rewrite decide_True.
    + intros t' Ht'. rewrite (Hframe t' Ht'), Hm1, Hc.
      by rewrite decide_False.
Qed.

Lemma generic_type_of c :
  exists g, generic (type_of c) = Some g /\ type_of g = type_of c.
Proof. destruct c; simpl; eauto. Qed.

Lemma bucket_step_ok t b c :
  type_of c = t -> t <> ANY -> bucket_ok t b -> bucket_ok t (bucket_step b c).
Proof.
  intros Hc Ht Hb. destruct b as [[|l]|]; simpl.
  - exact Hb.
  - destruct Hb as (_ & Hall & Hfold).
    destruct (Nat.eqb (length (entries c)) 0) eqn:Hlen;
      [|destruct (negb _) eqn:Hsome]; simpl.
    + split; [done|]. rewrite <- Hc. apply generic_type_of.
    + split; [done|]. split.
      * apply Forall_app. split; [done|]. by apply Forall_singleton.
      * rewrite fold_left_app, Hfold. simpl. by rewrite Hlen, Hsome.
    + by repeat split.
  - split; [done|]. split; [by apply Forall_singleton|done].
Qed.

Lemma add_results_ok m l m' :
  (forall t, bucket_ok t (m t)) ->
  add_results m l = inr m' ->
  forall t, bucket_ok t (m' t).
Proof.
  revert m. induction l as [|c l IH]; intros m Hok H; simpl in H.
  - by injection H as <-.
  - destruct (decide (type_of c = ANY)) as [Hc|Hc].
    + unfold add_result in H. by rewrite decide_True in H.
    + destruct (add_result_step m c Hc) as (m1 & Hm1 & Hstep).
      rewrite Hm1 in H. apply (IH m1); [|done].
      intros t. rewrite Hstep. case_decide as Ht; [|apply Hok].
      subst t. by apply bucket_step_ok.
Qed.

(** Filing again the constraints of the buckets of the types [ts]. *)
Lemma add_results_refile (ts : list ValueType) m m0 :
  NoDup ts ->
  (forall t, bucket_ok t (m t)) ->
  (forall t, t ∈ ts -> m0 t = None) ->
  exists m',
    add_results m0 (flat_map (fun t => bucket_constraints t (m t)) ts)
    = inr m'
    /\ (forall t, t ∈ ts -> m' t = refiled t (m t))
    /\ (forall t, t ∉ ts -> m' t = m0 t).
Proof.
  intros Hnd Hok. revert m0.
  induction Hnd as [|t ts Hnotin _ IH]; intros m0 Hempty; simpl.
  - exists m0. split; [done|]. split; [|done].
    intros t Ht. by apply elem_of_nil in Ht.
  - rewrite add_results_app.
    assert (Hfirst : exists m1,
               add_results m0 (bucket_constraints t (m t)) = inr m1
               /\ m1 t = refiled t (m t)
               /\ forall t', t' <> t -> m1 t' = m0 t').
    { specialize (Hok t). specialize (Hempty t (list_elem_of_here _ _)).
      destruct (m t) as [[|l]|]; simpl in *.
      - destruct Hok as (Ht & g & Hg & Hgt). rewrite Hg. simpl.
        destruct (add_result_step m0 g) as (m1 & -> & Hm1); [congruence|].
        exists m1. split; [done|]. split.
        + rewrite Hm1, Hgt, decide_True by done. by rewrite Hempty.
        + intros t' Ht'. rewrite Hm1, Hgt. by rewrite decide_False.
      - destruct Hok as (Ht & Hall & Hfold).
        destruct (add_results_same_type m0 l t Hall Ht)
          as (m1 & Hm1 & Hm1t & Hframe).
        exists m1. split; [done|]. split; [|done].
        by rewrite Hm1t, Hempty.
      - by exists m0. }
    destruct Hfirst as (m1 & -> & Hm1t & Hm1frame).
    destruct (IH m1) as (m' & Hm' & Hin & Hout).
    { intros t' Ht'. rewrite Hm1frame.
      - apply Hempty. by apply elem_of_cons; right.
      - intros ->. contradiction. }
    exists m'. split; [done|]. split.
    + intros t' Ht'. apply elem_of_cons in Ht' as [->|Ht'].
      * by rewrite (Hout t Hnotin).
      * by apply Hin.
    + intros t' Ht'. apply not_elem_of_cons in Ht' as [Hne Ht'].
      rewrite (Hout t' Ht'). by apply Hm1frame.
Qed.

Lemma bucket_constraints_refiled t b :
  bucket_ok t b ->
  bucket_constraints t (refiled t b) = bucket_constraints t b.
Proof.
  destruct b as [[|l]|]; simpl; try done.
  intros (_ & g & -> & _). reflexivity.
Qed.

Lemma apply_loop_identity cs m s :
  apply_loop (pure_callback identity_transform) cs m s
  = (Ok (match add_results m cs with
         | inl v => v
         | inr m' => rebuild m'
         end), s).
Proof.
  revert m. induction cs as [|c cs IH]; intros m; simpl.
  - reflexivity.
  - unfold bind, pure_callback, identity_transform, ret. simpl.
    destruct (add_result m c) as [v|m']; [reflexivity|apply IH].
Qed.

Lemma all_types_complete : NoDup all_types /\ forall t, t ∈ all_types.
Proof.
  split.
  - apply NoDup_ListNoDup. repeat constructor; simpl; intuition discriminate.
  - intros t. apply list_elem_of_In. destruct t; simpl; tauto.
Qed.

(** X17.  The idempotent half of C4: the identity join returns a value on
    which the identity join changes nothing. *)
Theorem identity_join_idempotent (v : Value) (s : State) :
  exists v1,
    applyToValue v (pure_callback identity_transform) s = (Ok v1, s)
    /\ applyToValue v1 (pure_callback identity_transform) s = (Ok v1, s).
Proof.
  unfold applyToValue. rewrite apply_loop_identity.
  eexists. split; [reflexivity|]. rewrite apply_loop_identity.
  f_equal. f_equal.
  destruct (add_results no_buckets (constraints v)) as [v1|m] eqn:Hfirst.
  - assert (CAny ∈ constraints v) as Hin.
    { destruct (any_in_or_not (constraints v)) as [Hin|Hnot]; [done|].
      destruct (add_results_without_any no_buckets _ Hnot) as [m' Hm'].
      congruence. }
    rewrite (add_results_with_any _ _ Hin) in Hfirst.
    injection Hfirst as <-. reflexivity.
  - assert (Hok : forall t, bucket_ok t (m t))
      by (apply (add_results_ok no_buckets (constraints v)); done).
    destruct all_types_complete as [Hnd Hall].
    destruct (add_results_refile all_types m no_buckets Hnd Hok)
      as (m' & Hm' & Hin & _); [done|].
    change (constraints (rebuild m))
      with (flat_map (fun t => bucket_constraints t (m t)) all_types).
    rewrite Hm'. unfold rebuild. f_equal.
    apply flat_map_ext. intros t.
    rewrite (Hin t (Hall t)). by apply bucket_constraints_refiled.
Qed.

(** ** More on the scope chain *)

(** X1.  [lookupVar] returns the binding of the nearest scope of the chain
    that binds the name, and nothing exactly when no scope binds it. *)
Theorem lookupVar_nearest (name : string) (s : Scope) :
  match lookupVar name s with
  | Some v =>
      exists i b,
        chain s !! i = Some b /\ b !! name = Some v
        /\ forall j b', j < i -> chain s !! j = Some b' -> b' !! name = None
  | None => forall b, b ∈ chain s -> b !! name = None
  end.
Proof.
  induction s as [b | p b IH] using Scope_chain_ind; simpl.
  - destruct (b !! name) as [v|] eqn:Hb.
    + exists 0, b. repeat split; try done. intros j b' Hj. lia.
    + intros b' Hin. apply list_elem_of_singleton in Hin. by subst.
  - destruct (b !! name) as [v|] eqn:Hb.
    + exists 0, b. repeat split; try done. intros j b' Hj. lia.
    + destruct (lookupVar name p) as [v|].
      * destruct IH as (i & b' & Hi & Hv & Hnear).
        exists (S i), b'. repeat split; try done.
        intros [|j] b'' Hj Hlook; simpl in Hlook.
        -- by injection Hlook as <-.
        -- apply (Hnear j); [lia|done].
      * intros b' Hin. apply elem_of_cons in Hin as [->|Hin]; [done|].
        by apply IH.
Qed.

Lemma lookupVar_setVar_same name v s : lookupVar name (setVar name v s) = Some v.
Proof.
  induction s as [b | p b IH] using Scope_chain_ind; simpl.
  - by rewrite lookup_insert_eq.
  - case_bool_decide as Hb; simpl.
    + by rewrite lookup_insert_eq.
    + apply eq_None_not_Some in Hb. by rewrite Hb.
Qed.

Lemma lookupVar_setVar_other name name' v s :
  name' <> name -> lookupVar name' (setVar name v s) = lookupVar name' s.
Proof.
  intros Hne. induction s as [b | p b IH] using Scope_chain_ind; simpl.
  - by rewrite lookup_insert_ne.
  - case_bool_decide as Hb; simpl.
    + by rewrite lookup_insert_ne.
    + by rewrite IH.
Qed.

(** X2.  After [setVar(name, v)] a lookup of [name] from the same scope
    returns [v], and the lookup of every other name is as before. *)
Theorem lookupVar_after_setVar (name : string) (v : Value) (s : Scope) :
  lookupVar name (setVar name v s) = Some v
  /\ forall name', name' <> name ->
       lookupVar name' (setVar name v s) = lookupVar name' s.
Proof.
  split; [apply lookupVar_setVar_same|].
  intros name'. apply lookupVar_setVar_other.
Qed.

(** X3.  Two calls of [setVar] on the same name from the same scope leave
    the chain as the second call alone does, and setting a name to the value
    that a lookup returns for it changes nothing. *)
Theorem setVar_twice (name : string) (v1 v2 : Value) (s : Scope) :
  setVar name v2 (setVar name v1 s) = setVar name v2 s
  /\ (lookupVar name s = Some v1 -> setVar name v1 s = s).
Proof.
  split.
  - induction s as [b | p b IH] using Scope_chain_ind; simpl.
    + by rewrite insert_insert_eq.
    + case_bool_decide as Hb; simpl.
      * rewrite bool_decide_eq_true_2 by (by rewrite lookup_insert_eq).
        by rewrite insert_insert_eq.
      * rewrite bool_decide_eq_false_2 by done. by rewrite IH.
  - induction s as [b | p b IH] using Scope_chain_ind; simpl.
    + destruct (b !! name) as [v|] eqn:Hb; [|discriminate].
      intros [= ->]. by rewrite insert_id.
    + case_bool_decide as Hb.
      * destruct Hb as [v Hb]. rewrite Hb. intros [= ->].
        by rewrite insert_id.
      * apply eq_None_not_Some in Hb. rewrite Hb. intros Hp.
        by rewrite IH.
Qed.

Lemma setVar_twice_witness :
  let v := mkValue [CNull] in
  let s := mkScope (Some (mkScope None {[ "x" := v ]})) ∅ in
  setVar "x" v s = s.
Proof.
  cbv zeta.
  apply (proj2 (setVar_twice "x" (mkValue [CNull]) (mkValue [CNull])
                  (mkScope (Some (mkScope None {[ "x" := mkValue [CNull] ]}))
                     ∅))).
  vm_compute. reflexivity.
Defined.

(** ** What every join returns *)

Lemma add_results_inl m l v : add_results m l = inl v -> v = mkValue [CAny].
Proof.
  revert m. induction l as [|c l IH]; intros m H; simpl in H; [discriminate|].
  destruct (decide (type_of c = ANY)) as [Hc|Hc].
  - apply type_of_ANY in Hc as ->. by injection H as <-.
  - destruct (add_result_step m c Hc) as (m1 & Hm1 & _).
    rewrite Hm1 in H. by apply (IH m1).
Qed.

Lemma bucket_step_distinct b c :
  bucket_distinct b -> bucket_distinct (bucket_step b c).
Proof.
  destruct b as [[|l]|]; simpl; try done.
  - intros Hl.
    destruct (Nat.eqb (length (entries c)) 0) eqn:Hlen;
      [done|destruct (negb _) eqn:Hsome]; simpl; [|done].
    apply StronglySorted_app. split; [|split; [done|]].
    + intros a b Ha Hb. apply list_elem_of_singleton in Hb as ->. split.
      * intros Hnil. by rewrite Hnil in Hlen.
      * apply negb_true_iff in Hsome.
        destruct (same_fields (entries c) a) eqn:Hsame; [|done].
        assert (existsb (same_fields (entries c)) l = true) as Hex; [|congruence].
        apply existsb_exists. exists a. split; [by apply list_elem_of_In|done].
    + repeat constructor.
  - intros _. repeat constructor.
Qed.

Lemma add_results_distinct m l m' :
  (forall t, bucket_distinct (m t)) ->
  add_results m l = inr m' ->
  forall t, bucket_distinct (m' t).
Proof.
  revert m. induction l as [|c l IH]; intros m Hok H; simpl in H.
  - by injection H as <-.
  - destruct (decide (type_of c = ANY)) as [Hc|Hc].
    + unfold add_result in H. by rewrite decide_True in H.
    + destruct (add_result_step m c Hc) as (m1 & Hm1 & Hstep).
      rewrite Hm1 in H. apply (IH m1); [|done].
      intros t. rewrite Hstep. case_decide as Ht; [|apply Hok].
      by apply bucket_step_distinct.
Qed.

(** A join that returns a value returns [Any] alone or the rebuilt table,
    whose buckets are as the join builds them. *)
Lemma apply_loop_returns callback cs m s r s' :
  (forall t, bucket_ok t (m t) /\ bucket_distinct (m t)) ->
  apply_loop callback cs m s = (Ok r, s') ->
  r = mkValue [CAny]
  \/ exists m', r = rebuild m'
       /\ forall t, bucket_ok t (m' t) /\ bucket_distinct (m' t).
Proof.
  revert m s. induction cs as [|c cs IH]; intros m s Hm H; simpl in H.
  - injection H as <- <-. right. by exists m.
  - unfold bind in H.
    destruct (callback c s) as [[rs|e] s1]; [|discriminate].
    destruct (add_results m rs) as [v|m1] eqn:Hrs.
    + injection H as <- <-. left. by apply (add_results_inl m rs).
    + apply (IH m1 s1); [|done]. intros t. split.
      * apply (add_results_ok m rs); [|done]. intros t'. apply Hm.
      * apply (add_results_distinct m rs); [|done]. intros t'. apply Hm.
Qed.

Lemma bucket_constraints_types t b :
  bucket_ok t b ->
  Forall (fun c => type_of c = t /\ t <> ANY) (bucket_constraints t b).
Proof.
  destruct b as [[|l]|]; simpl.
  - intros (Ht & g & -> & Hg). simpl. by repeat constructor.
  - intros (Ht & Hall & _). eapply Forall_impl; [exact Hall|]. by intros c <-.
  - intros _. constructor.
Qed.

(** The rebuilt value satisfies every relation that holds inside each bucket
    and between constraints of types in the order of the table. *)
Lemma rebuild_sorted (R : ValueConstraint -> ValueConstraint -> Prop)
  (ts : list ValueType) (m : Buckets) :
  (forall t, bucket_ok t (m t)) ->
  (forall t, StronglySorted R (bucket_constraints t (m t))) ->
  StronglySorted
    (fun t t' => forall a b, type_of a = t -> type_of b = t' -> R a b) ts ->
  StronglySorted R (flat_map (fun t => bucket_constraints t (m t)) ts).
Proof.
  intros Hok Hin Hts. induction Hts as [|t ts _ IH Hcross]; simpl.
  - constructor.
  - apply StronglySorted_app. split; [|split; [apply Hin|exact IH]].
    intros a b Ha Hb.
    apply list_elem_of_In, in_flat_map in Hb as (t' & Ht' & Hb).
    rewrite Forall_forall in Hcross.
    apply (Hcross t'); [by apply list_elem_of_In| |].
    + pose proof (bucket_constraints_types t _ (Hok t)) as Hty.
      rewrite Forall_forall in Hty. by apply Hty.
    + pose proof (bucket_constraints_types t' _ (Hok t')) as Hty.
      rewrite Forall_forall in Hty. by apply Hty, list_elem_of_In.
Qed.

Lemma all_types_cross (R : ValueConstraint -> ValueConstraint -> Prop) :
  (forall a b,
      type_of a <> type_of b ->
      (ValueType_code (type_of a) < ValueType_code (type_of b))%Z ->
      R a b) ->
  StronglySorted
    (fun t t' => forall a b, type_of a = t -> type_of b = t' -> R a b)
    all_types.
Proof.
  intros HR. unfold all_types.
  repeat first [apply SSorted_cons | apply List.Forall_cons
               | apply List.Forall_nil | apply SSorted_nil];
    intros a b Ha Hb; apply HR; rewrite Ha, Hb;
    first [discriminate | reflexivity].
Qed.

Lemma constraints_rebuild m :
  constraints (rebuild m)
  = flat_map (fun t => bucket_constraints t (m t)) all_types.
Proof. reflexivity. Qed.

Lemma no_buckets_sound t : bucket_ok t (no_buckets t) /\ bucket_distinct (no_buckets t).
Proof. done. Qed.

(** X4.  Whatever the callback, a value returned by the join holds the Any
    constraint only as its single constraint. *)
Theorem join_any_only_alone
  (callback : Callback) (v r : Value) (s s' : State) :
  applyToValue v callback s = (Ok r, s') ->
  CAny ∈ constraints r -> r = mkValue [CAny].
Proof.
  intros H Hany.
  destruct (apply_loop_returns _ _ _ _ _ _ no_buckets_sound H)
    as [->|(m & -> & Hm)]; [done|].
  exfalso. rewrite constraints_rebuild in Hany.
  apply list_elem_of_In, in_flat_map in Hany as (t & _ & Hin).
  pose proof (bucket_constraints_types t _ (proj1 (Hm t))) as Hty.
  rewrite Forall_forall in Hty.
  destruct (Hty CAny) as [<- Hne]; [by apply list_elem_of_In|].
  by apply Hne.
Qed.

Lemma join_any_only_alone_witness :
  fst (applyToValue (mkValue [CNull; CAny; CNull])
         (pure_callback identity_transform) (mkState createGlobalScope []))
  = Ok (mkValue [CAny]).
Proof.
  change (@Ok Value (mkValue [CAny]) = Ok (mkValue [CAny])).
  apply (f_equal Ok).
  apply (join_any_only_alone (pure_callback identity_transform)
           (mkValue [CNull; CAny; CNull]) _
           (mkState createGlobalScope []) (mkState createGlobalScope [])).
  - reflexivity.
  - vm_compute. apply list_elem_of_here.
Defined.

(** X5.  Whatever the callback and the order of the results, the constraints
    of a value returned by the join are listed by ascending type. *)
Theorem join_listed_by_type
  (callback : Callback) (v r : Value) (s s' : State) :
  applyToValue v callback s = (Ok r, s') ->
  StronglySorted
    (fun a b => (ValueType_code (type_of a) <= ValueType_code (type_of b))%Z)
    (constraints r).
Proof.
  intros H.
  destruct (apply_loop_returns _ _ _ _ _ _ no_buckets_sound H)
    as [->|(m & -> & Hm)]; [repeat constructor|].
  rewrite constraints_rebuild. apply rebuild_sorted.
  - intros t. apply Hm.
  - intros t.
    pose proof (bucket_constraints_types t _ (proj1 (Hm t))) as Hty.
    induction Hty as [|c l [Hc _] Hl IH]; constructor; [done|].
    eapply Forall_impl; [exact Hl|]. intros c' [Hc' _]. simpl in Hc'.
    rewrite Hc, Hc'. lia.
  - apply all_types_cross. intros a b _ Hlt. lia.
Qed.

Lemma join_listed_by_type_witness :
  StronglySorted
    (fun a b => (ValueType_code (type_of a) <= ValueType_code (type_of b))%Z)
    [CNull; CNumber (Val 1%float)].
Proof.
  apply (join_listed_by_type (pure_callback identity_transform)
           (mkValue [CNumber (Val 1%float); CNull])
           (mkValue [CNull; CNumber (Val 1%float)])
           (mkState createGlobalScope []) (mkState createGlobalScope [])).
  reflexivity.
Defined.

(** X6.  In a value returned by the join, a constraint that comes after
    another one of its type has refinement data and is not a duplicate of
    it (some field differs, or the numbers of keys differ). *)
Theorem join_keeps_no_duplicate
  (callback : Callback) (v r : Value) (s s' : State) :
  applyToValue v callback s = (Ok r, s') ->
  StronglySorted
    (fun a b => type_of a = type_of b -> distinct_after a b)
    (constraints r).
Proof.
  intros H.
  destruct (apply_loop_returns _ _ _ _ _ _ no_buckets_sound H)
    as [->|(m & -> & Hm)]; [repeat constructor|].
  rewrite constraints_rebuild. apply rebuild_sorted.
  - intros t. apply Hm.
  - intros t. destruct (Hm t) as [Hok Hd].
    destruct (m t) as [[|l]|]; simpl in *.
    + destruct Hok as (_ & g & -> & _). repeat constructor.
    + clear Hok. induction Hd as [|a l _ IH Ha]; constructor; [done|].
      eapply Forall_impl; [exact Ha|]. by intros b Hb _.
    + constructor.
  - apply all_types_cross. intros a b Hne _ Heq. contradiction.
Qed.

Lemma join_keeps_no_duplicate_witness :
  StronglySorted
    (fun a b => type_of a = type_of b -> distinct_after a b)
    [CNumber (Val 1%float); CNumber (Val 2%float)].
Proof.
  apply (join_keeps_no_duplicate (pure_callback identity_transform)
           (mkValue [CNumber (Val 1%float); CNumber (Val 2%float);
                     CNumber (Val 1%float)])
           (mkValue [CNumber (Val 1%float); CNumber (Val 2%float)])
           (mkState createGlobalScope []) (mkState createGlobalScope [])).
  reflexivity.
Defined.

(** ** Invariants of the evaluator *)

Lemma scope_grows_refl s : scope_grows s s.
Proof. unfold scope_grows. by apply Forall_Forall2_diag, Forall_true. Qed.

Lemma scope_grows_trans s1 s2 s3 :
  scope_grows s1 s2 -> scope_grows s2 s3 -> scope_grows s1 s3.
Proof.
  unfold scope_grows. intros H12 H23.
  eapply Forall2_trans; [|exact H12|exact H23].
  simpl. intros b1 b2 b3 Ha Hb. set_solver.
Qed.

Lemma scope_grows_setVar name v s : scope_grows s (setVar name v s).
Proof.
  unfold scope_grows.
  induction s as [b | p b IH] using Scope_chain_ind; simpl.
  - constructor; [|constructor]. rewrite dom_insert_L. set_solver.
  - case_bool_decide.
    + simpl. constructor; [rewrite dom_insert_L; set_solver|].
      by apply Forall_Forall2_diag, Forall_true.
    + simpl. by constructor.
Qed.

Lemma scope_grows_bind_here name v s : scope_grows s (bind_here name v s).
Proof.
  unfold scope_grows. destruct s as [[p|] b]; simpl.
  - constructor; [rewrite dom_insert_L; set_solver|].
    by apply Forall_Forall2_diag, Forall_true.
  - constructor; [rewrite dom_insert_L; set_solver|constructor].
Qed.

Lemma lookupVar_bound name s :
  is_Some (lookupVar name s)
  <-> Exists (fun b : gmap string Value => name ∈ dom b) (chain s).
Proof.
  induction s as [b | p b IH] using Scope_chain_ind; simpl.
  - rewrite Exists_cons, Exists_nil, elem_of_dom.
    destruct (b !! name); (split; [intros H; by left | by intros [H|[]]]).
  - rewrite Exists_cons, elem_of_dom, <- IH.
    destruct (b !! name) as [v|]; split.
    + intros H. by left.
    + intros _. by exists v.
    + intros H. by right.
    + intros [[v Hv]|H]; [discriminate|done].
Qed.

Lemma scope_grows_bound name s s' :
  scope_grows s s' ->
  is_Some (lookupVar name s) -> is_Some (lookupVar name s').
Proof.
  unfold scope_grows. rewrite !lookupVar_bound. intros H.
  induction H as [|b b' l l' Hb _ IH]; rewrite ?Exists_cons, ?Exists_nil.
  - done.
  - intros [Hin|Hin]; [left; set_solver|right; by apply IH].
Qed.

Lemma state_grows_refl s : state_grows s s.
Proof. split; [done|apply scope_grows_refl]. Qed.

Lemma state_grows_trans s1 s2 s3 :
  state_grows s1 s2 -> state_grows s2 s3 -> state_grows s1 s3.
Proof.
  intros [Ha Hb] [Hc Hd]. split.
  - by etrans.
  - by eapply scope_grows_trans.
Qed.

Lemma bind_cases {A B} (m : Exec A) (k : A -> Exec B) s res s' :
  bind m k s = (res, s') ->
  (exists err, m s = (Thrown err, s') /\ res = Thrown err)
  \/ (exists a s1, m s = (Ok a, s1) /\ k a s1 = (res, s')).
Proof.
  unfold bind. destruct (m s) as [[a|err] s1]; intros H.
  - right. by exists a, s1.
  - injection H as <- <-. left. by exists err.
Qed.

Lemma apply_loop_property_state access name cs m s res s' :
  apply_loop (property_callback access name) cs m s = (res, s') ->
  s' = s
  /\ forall err, res = Thrown err ->
       err = mkCompileError "Only objects support property access"
               (Some (AtNode access)).
Proof.
  revert m. induction cs as [|c cs IH]; intros m H; simpl in H.
  - injection H as <- <-. by split.
  - apply bind_cases in H as [(err & Hc & ->)|(rs & s1 & Hc & H)].
    + unfold property_callback in Hc.
      destruct c as [| | | | |props|];
        try (injection Hc as <- <-; split; [done|by intros ? [= <-]]).
      destruct (defined props) as [[a record]|]; discriminate.
    + assert (s1 = s) as ->.
      { unfold property_callback in Hc.
        destruct c as [| | | | |props|]; try discriminate.
        destruct (defined props) as [[a record]|]; by injection Hc. }
      destruct (add_results m rs) as [v|m'].
      * injection H as <- <-. by split.
      * by apply (IH m').
Qed.

Lemma result_shape_setVar r sc identifier v :
  value r = Some v ->
  result_shape r sc -> result_shape r (setVar identifier v sc).
Proof.
  intros Hv [->|[->|[[v' ->]|(x & v' & -> & Hx)]]].
  - by left.
  - by right; left.
  - right; right; left. by exists v'.
  - right; right; right. exists x, v'. split; [done|].
    injection Hv as ->.
    destruct (decide (x = identifier)) as [->|Hne].
    + apply lookupVar_setVar_same.
    + by rewrite lookupVar_setVar_other.
Qed.

Lemma result_shape_exception r sc sc' :
  is_Some (exception r) -> result_shape r sc -> result_shape r sc'.
Proof.
  intros [e He] [->|[->|[[v' ->]|(x & v' & -> & Hx)]]]; try discriminate.
  by right; left.
Qed.

(** What the evaluator keeps on every node: the state only grows; a result
    has one of the four forms; a failure is one of the known ones. *)
Lemma execNode_sound handlers n :
  forall s res s', execNode handlers n s = (res, s') ->
  state_grows s s'
  /\ match res with
     | Ok r => result_shape r (scope s')
     | Thrown err => known_failure err
     end.
Proof.
  induction n as
    [l IH|flags ds IH|e args IHe IHargs|e IHe|lhs op rhs _ IHr|e name IHe
    |x|t e| | | |k] using Node_deep_ind; intros s res s' H.
  - revert s H. induction IH as [|st l Hst _ IHl]; intros s H.
    + injection H as <- <-. split; [apply state_grows_refl|by left].
    + rewrite execNode_SourceFile_cons in H.
      destruct (execNode handlers st s) as [[r0|e0] s0] eqn:E;
        apply Hst in E as [Hg Ho].
      * destruct (exception r0).
        -- injection H as <- <-. split; [done|by left].
        -- apply IHl in H as [Hg' Ho']. split; [|done].
           by apply (state_grows_trans _ s0).
      * injection H as <- <-. by split.
  - simpl in H. destruct (negb _ || negb _).
    { injection H as <- <-. split; [apply state_grows_refl|].
      left. by eexists. }
    revert s H. induction IH as [|[b o] ds Hd _ IHds]; intros s H.
    + injection H as <- <-. split; [apply state_grows_refl|by left].
    + destruct b as [name| |].
      * destruct o as [init|].
        -- apply bind_cases in H as [(err & E & ->)|(r0 & s0 & E & H)];
             apply (Hd init eq_refl) in E as [Hg Ho]; [by split|].
           destruct (exception r0) eqn:Hexc.
           ++ injection H as <- <-. by split.
           ++ apply bind_cases in H as [(err & E & ->)|(u & s1 & E & H)];
                [discriminate|].
              injection E as _ <-.
              apply IHds in H as [Hg' Ho']. split; [|done].
              apply (state_grows_trans _ s0); [done|].
              eapply state_grows_trans; [|exact Hg'].
              split; [done|apply scope_grows_bind_here].
        -- apply bind_cases in H as [(err & E & ->)|(u & s1 & E & H)];
             [discriminate|].
           injection E as _ <-.
           apply IHds in H as [Hg' Ho']. split; [|done].
           eapply state_grows_trans; [|exact Hg'].
           split; [done|apply scope_grows_bind_here].
      * injection H as <- <-. split; [apply state_grows_refl|].
        right; left. by eexists.
      * injection H as <- <-. split; [apply state_grows_refl|].
        right; left. by eexists.
  - rewrite execNode_CallExpression in H.
    pose (call := CallExpression e args).
    assert (Hcall : exists e' a', call = CallExpression e' a')
      by (by exists e, args).
    change (CallExpression e args) with call in H. clearbody call.
    destruct (execNode handlers e s) as [[r0|e0] s0] eqn:E;
      apply IHe in E as [Hg Ho].
    2:{ injection H as <- <-. by split. }
    destruct (exception r0) eqn:Hexc.
    { injection H as <- <-. by split. }
    destruct (value r0) as [callee|] eqn:Hval.
    2:{ injection H as <- <-. by split. }
    cut (state_grows s0 s'
         /\ match res with
            | Ok r => result_shape r (scope s')
            | Thrown err => known_failure err
            end).
    { intros [Hg' Ho']. split; [|done]. by apply (state_grows_trans _ s0). }
    clear Hg Ho Hexc Hval r0 s. revert s0 H. generalize (@nil Value).
    induction IHargs as [|arg args Harg _ IHrest]; intros acc s0 H.
    + rewrite call_arguments_nil in H. unfold applyToValue in H.
      destruct (apply_loop _ _ _ _) as [[v|err] s1] eqn:E.
      * injection H as <- <-.
        apply apply_loop_call_effects in E as [Hsc [k Hk]]. split.
        -- split; [rewrite Hk; by apply prefix_app_r|].
           rewrite Hsc. apply scope_grows_refl.
        -- right; right; left. by eexists.
      * injection H as <- <-.
        pose proof (apply_loop_call_failure _ _ _ _ _ _ _ _ E) as [-> _].
        apply apply_loop_call_effects in E as [Hsc [k Hk]]. split.
        -- split; [rewrite Hk; by apply prefix_app_r|].
           rewrite Hsc. apply scope_grows_refl.
        -- destruct Hcall as (e' & a' & ->). right; right; left.
           by exists e', a'.
    + rewrite call_arguments_cons in H.
      destruct (execNode handlers arg s0) as [[r1|e1] s1] eqn:E;
        apply Harg in E as [Hg Ho].
      2:{ injection H as <- <-. by split. }
      destruct (exception r1) eqn:Hexc.
      { injection H as <- <-. by split. }
      destruct (value r1) as [v|] eqn:Hval.
      2:{ injection H as <- <-. by split. }
      apply IHrest in H as [Hg' Ho']. split; [|done].
      by apply (state_grows_trans _ s1).
  - simpl in H. by apply IHe.
  - simpl in H. destruct op.
    2:{ injection H as <- <-. split; [apply state_grows_refl|].
        left. by eexists. }
    destruct lhs;
      try (injection H as <- <-; split; [apply state_grows_refl|];
           left; by eexists).
    apply bind_cases in H as [(err & E & ->)|(sc & s0 & E & H)];
      [discriminate|].
    injection E as <- <-.
    destruct (lookupVar _ _).
    2:{ injection H as <- <-. split; [apply state_grows_refl|].
        by right; left. }
    apply bind_cases in H as [(err & E & ->)|(r0 & s0 & E & H)];
      apply IHr in E as [Hg Ho]; [by split|].
    destruct (exception r0) eqn:Hexc.
    { injection H as <- <-. by split. }
    destruct (value r0) as [v0|] eqn:Hval.
    2:{ injection H as <- <-. by split. }
    apply bind_cases in H as [(err & E & ->)|(u & s1 & E & H)];
      [discriminate|].
    injection E as _ <-. injection H as <- <-. split.
    + eapply state_grows_trans; [exact Hg|].
      split; [done|apply scope_grows_setVar].
    + simpl. by apply result_shape_setVar.
  - simpl in H.
    apply bind_cases in H as [(err & E & ->)|(r0 & s0 & E & H)];
      apply IHe in E as [Hg Ho]; [by split|].
    destruct (exception r0) eqn:Hexc.
    { injection H as <- <-. by split. }
    destruct (value r0) as [v0|] eqn:Hval.
    2:{ injection H as <- <-. by split. }
    unfold applyToValue in H.
    apply bind_cases in H as [(err & E & ->)|(v & s1 & E & H)].
    + apply apply_loop_property_state in E as [-> Herr].
      split; [done|]. rewrite (Herr err eq_refl).
      right; right; right. by exists e, name.
    + apply apply_loop_property_state in E as [-> _].
      injection H as <- <-. split; [done|].
      right; right; left. by eexists.
  - injection H as <- <-. split; [apply state_grows_refl|].
    right; right; left. by eexists.
  - simpl in H. destruct (decide _).
    + injection H as <- <-. split; [apply state_grows_refl|].
      right; right; left. by eexists.
    + apply bind_cases in H as [(err & E & ->)|(sc & s0 & E & H)];
        [discriminate|].
      injection E as <- <-.
      destruct (lookupVar t (scope s)) as [v|] eqn:Hl; injection H as <- <-;
        (split; [apply state_grows_refl|]).
      * right; right; right. by exists t, v.
      * by right; left.
  - injection H as <- <-. split; [apply state_grows_refl|].
    right; right; left. by eexists.
  - injection H as <- <-. split; [apply state_grows_refl|].
    right; right; left. by eexists.
  - injection H as <- <-. split; [apply state_grows_refl|].
    right; right; left. by eexists.
  - injection H as <- <-. split; [apply state_grows_refl|].
    left. by eexists.
Qed.



(** X8.  The evaluation of a node, whether it returns or fails, keeps the
    side effects recorded before it, in their order, as the first entries of
    the list. *)
Theorem execNode_keeps_side_effects
  (handlers : Addr -> list Value -> Value) (n : Node) (s s' : State)
  (res : Res ExecResult) :
  execNode handlers n s = (res, s') ->
  sideEffects s `prefix_of` sideEffects s'.
Proof. intros H. by apply execNode_sound in H as [[Hp _] _]. Qed.

Lemma execNode_keeps_side_effects_witness :
  sideEffects after_log_1
  `prefix_of` [[mkValue [CNumber (Val 1%float)]];
               [mkValue [CNumber (Val 1%float)]]].
Proof.
  apply (execNode_keeps_side_effects native_handlers console_log_1_call
           after_log_1
           (mkState createGlobalScope
              [[mkValue [CNumber (Val 1%float)]];
               [mkValue [CNumber (Val 1%float)]]])
           (Ok (of_value undefined_value))).
  vm_compute. reflexivity.
Defined.

(** X9.  The evaluation of a node, whether it returns or fails, keeps the
    depth of the scope chain, and every name that a lookup finds before it
    is found after it: the evaluator never removes a scope or a binding. *)
Theorem execNode_keeps_scopes_and_bindings
  (handlers : Addr -> list Value -> Value) (n : Node) (s s' : State)
  (res : Res ExecResult) :
  execNode handlers n s = (res, s') ->
  length (chain (scope s')) = length (chain (scope s))
  /\ forall name, is_Some (lookupVar name (scope s)) ->
       is_Some (lookupVar name (scope s')).
Proof.
  intros H. apply execNode_sound in H as [[_ Hsc] _]. split.
  - symmetry. by eapply Forall2_length.
  - intros name. by apply scope_grows_bound.
Qed.

Lemma execNode_keeps_scopes_and_bindings_witness :
  length (chain (scope after_log_1)) = length (chain createGlobalScope)
  /\ forall name, is_Some (lookupVar name createGlobalScope) ->
       is_Some (lookupVar name (scope after_log_1)).
Proof.
  apply (execNode_keeps_scopes_and_bindings native_handlers
           console_log_1_call (mkState createGlobalScope []) after_log_1
           (Ok (of_value undefined_value))).
  vm_compute. reflexivity.
Defined.

(** X10.  Every diagnostic that [compile] returns is an error diagnostic of
    the program with the placeholder code, a start and a length, and one of
    the four messages of the evaluator. *)
Theorem compile_diagnostics_well_formed
  (getFullStart getFullWidth : NodeRef -> Z) (sourceFile : Node)
  (d : Diagnostic) :
  d ∈ diagnostics (compile getFullStart getFullWidth sourceFile) ->
  file d = sourceFile /\ category d = Error /\ code d = "Z"
  /\ is_Some (start d) /\ is_Some (length' d)
  /\ messageText d ∈ ["Unsupported JS code encountered";
                      "destructuring is not supported";
                      "Called value may not be a function";
                      "Only objects support property access"].
Proof.
  unfold compile, compile_from, evaluate. simpl.
  destruct (execNode native_handlers sourceFile _) as [[r|err] s'] eqn:H;
    simpl; intros Hd.
  - by apply elem_of_nil in Hd.
  - apply list_elem_of_singleton in Hd as ->.
    apply execNode_sound in H as [_ Hknown]. unfold addDiagnostic. simpl.
    destruct Hknown as [[n ->]|[[b ->]|[(e & a & ->)|(e & name & ->)]]];
      simpl; repeat split; eauto; set_solver.
Qed.

Lemma compile_diagnostics_well_formed_witness :
  let sourceFile := SourceFile [let_x_1] in
  let d := addDiagnostic (fun _ => 0%Z) (fun _ => 0%Z) sourceFile
             "Unsupported JS code encountered" (Some (AtNode let_x_1)) in
  file d = sourceFile /\ category d = Error /\ code d = "Z"
  /\ is_Some (start d) /\ is_Some (length' d)
  /\ messageText d ∈ ["Unsupported JS code encountered";
                      "destructuring is not supported";
                      "Called value may not be a function";
                      "Only objects support property access"].
Proof.
  cbv zeta.
  apply (compile_diagnostics_well_formed (fun _ => 0%Z) (fun _ => 0%Z)
           (SourceFile [let_x_1])).
  vm_compute. apply list_elem_of_here.
Defined.

(** ** Declarations and assignments *)

(** X11.  When the assignment [x = e] returns a value without exception,
    the identifier was bound before, and a lookup of [x] from the current
    scope afterwards returns that value. *)
Theorem assignment_then_lookup
  (handlers : Addr -> list Value -> Value) (t x : string) (rhs : Node)
  (s s' : State) (r : ExecResult) (v : Value) :
  execNode handlers (BinaryExpression (Identifier t x) FirstAssignment rhs) s
  = (Ok r, s') ->
  exception r = None ->
  value r = Some v ->
  is_Some (lookupVar x (scope s)) /\ lookupVar x (scope s') = Some v.
Proof.
  intros H Hexc Hval. simpl in H.
  apply bind_cases in H as [(err & E & [=])|(sc & s0 & E & H)].
  injection E as <- <-.
  destruct (lookupVar x (scope s)) as [old|] eqn:Hold.
  2:{ injection H as <- <-. discriminate. }
  split; [done|].
  apply bind_cases in H as [(err & E & [=])|(r0 & s0 & E & H)].
  destruct (exception r0) eqn:Hexc0.
  { injection H as <- <-. congruence. }
  destruct (value r0) as [v0|] eqn:Hval0.
  2:{ injection H as <- <-. congruence. }
  apply bind_cases in H as [(err & E' & [=])|(u & s1 & E' & H)].
  injection E' as _ <-. injection H as <- <-. simpl.
  assert (v0 = v) as -> by congruence.
  apply lookupVar_setVar_same.
Qed.

Lemma assignment_then_lookup_witness :
  let assigned :=
    mkScope None
      (<[ "console" := mkValue [CNumber (Val 1%float)] ]>
         {[ "console" :=
              mkValue [CObject (Val (console_props_addr, console_props))] ]})
  in
  is_Some (lookupVar "console" createGlobalScope)
  /\ lookupVar "console" assigned = Some (mkValue [CNumber (Val 1%float)]).
Proof.
  cbv zeta.
  apply (assignment_then_lookup native_handlers "console" "console"
           (NumericLiteral 1%float) (mkState createGlobalScope [])
           (mkState _ [])
           (of_value (mkValue [CNumber (Val 1%float)]))
           (mkValue [CNumber (Val 1%float)])).
  - vm_compute. reflexivity.
  - reflexivity.
  - reflexivity.
Defined.

Lemma declare_all_grows handlers ds s res s' :
  declare_all handlers ds s = (res, s') -> state_grows s s'.
Proof.
  intros H.
  rewrite <- (execNode_VariableStatement handlers 0 ds s eq_refl eq_refl) in H.
  by apply execNode_sound in H as [Hg _].
Qed.

Lemma scope_grows_here s s' :
  scope_grows s s' -> dom (bindings s) ⊆ dom (bindings s').
Proof.
  unfold scope_grows. destruct s as [[p|] b], s' as [[p'|] b']; simpl;
    intros H; by apply Forall2_cons_1 in H as [H _].
Qed.

(** X12.  When a [var] statement ends without failure and without
    exception, each name it declares is bound in the current scope, whatever
    the initializers of the later declarations do. *)
Theorem var_statement_binds_names
  (handlers : Addr -> list Value -> Value) (flags : Z)
  (ds : list (BindingName * option Node)) (s s' : State) (r : ExecResult) :
  execNode handlers (VariableStatement flags ds) s = (Ok r, s') ->
  exception r = None ->
  forall x init, (BindingIdentifier x, init) ∈ ds ->
    x ∈ dom (bindings (scope s')).
Proof.
  intros H Hexc. simpl in H.
  destruct (negb _ || negb _); [discriminate|].
  change (declare_all handlers ds s = (Ok r, s')) in H.
  revert s H. induction ds as [|[b o] ds IH]; intros s H x init Hin.
  - by apply elem_of_nil in Hin.
  - destruct b as [y| |]; [|simpl in H; discriminate..].
    assert (Hstep : exists v s0,
               state_grows s s0
               /\ declare_all handlers ds
                    (mkState (bind_here y v (scope s0)) (sideEffects s0))
                  = (Ok r, s')).
    { simpl in H. destruct o as [i|].
      - apply bind_cases in H as [(err & E & [=])|(r0 & s0 & E & H)].
        apply execNode_sound in E as [Hg _].
        destruct (exception r0) eqn:Hexc0.
        { injection H as <- <-. congruence. }
        apply bind_cases in H as [(err & E' & [=])|(u & s1 & E' & H)].
        injection E' as _ <-. by eexists _, s0.
      - apply bind_cases in H as [(err & E' & [=])|(u & s1 & E' & H)].
        injection E' as _ <-. eexists _, s.
        split; [apply state_grows_refl|exact H]. }
    destruct Hstep as (v & s0 & Hg & Hrest).
    apply elem_of_cons in Hin as [Heq|Hin].
    + injection Heq as -> _.
      apply declare_all_grows in Hrest as [_ Hsc].
      apply scope_grows_here in Hsc. apply Hsc. simpl.
      destruct (scope s0) as [p bs]. simpl. rewrite dom_insert_L. set_solver.
    + by apply (IH _ Hrest x init).
Qed.

Lemma var_statement_binds_names_witness :
  "x" ∈ dom (<[ "x" := mkValue [CNumber (Val 1%float)] ]>
               (bindings createGlobalScope)).
Proof.
  apply (var_statement_binds_names native_handlers 0
           [(BindingIdentifier "x", Some (NumericLiteral 1%float))]
           (mkState createGlobalScope [])
           (mkState (mkScope None
                       (<[ "x" := mkValue [CNumber (Val 1%float)] ]>
                          (bindings createGlobalScope))) [])
           no_result eq_refl eq_refl "x" (Some (NumericLiteral 1%float))).
  apply list_elem_of_here.
Defined.



(** X14.  A destructuring pattern in a [var] statement raises its failure
    when its turn comes: the declarations before it have been carried out
    and stay in the state of the failure, and neither its initializer nor
    any later declaration is evaluated. *)
Theorem destructuring_fails_after_earlier_declarations
  (handlers : Addr -> list Value -> Value) (flags : Z)
  (before after : list (BindingName * option Node))
  (pattern : BindingName) (init : option Node) (s s1 : State) :
  Z.land flags NodeFlags_Let = 0%Z ->
  Z.land flags NodeFlags_Const = 0%Z ->
  (forall name, pattern <> BindingIdentifier name) ->
  declares handlers before s s1 ->
  execNode handlers
    (VariableStatement flags (before ++ (pattern, init) :: after)) s
  = (Thrown (mkCompileError "destructuring is not supported"
               (Some (AtName pattern))), s1).
Proof.
  intros Hlet Hconst Hpat Hbefore.
  rewrite (execNode_VariableStatement _ _ _ _ Hlet Hconst).
  rewrite (declares_then _ _ _ _ _ Hbefore). simpl.
  destruct pattern as [name| |]; [|reflexivity..].
  by destruct (Hpat name).
Qed.

Lemma destructuring_fails_after_earlier_declarations_witness :
  execNode native_handlers
    (VariableStatement 0
       [(BindingIdentifier "a", Some (NumericLiteral 1%float));
        (ArrayBindingPattern, Some (ident "y"));
        (BindingIdentifier "c", None)])
    (mkState (mkScope None ∅) [])
  = (Thrown (mkCompileError "destructuring is not supported"
               (Some (AtName ArrayBindingPattern))),
     mkState (mkScope None {[ "a" := mkValue [CNumber (Val 1%float)] ]}) []).
Proof.
  apply (destructuring_fails_after_earlier_declarations native_handlers 0
           [(BindingIdentifier "a", Some (NumericLiteral 1%float))]
           [(BindingIdentifier "c", None)] ArrayBindingPattern
           (Some (ident "y")) (mkState (mkScope None ∅) [])
           (mkState (mkScope None
                       {[ "a" := mkValue [CNumber (Val 1%float)] ]}) [])).
  - reflexivity.
  - reflexivity.
  - discriminate.
  - apply (declares_initialized native_handlers "a" (NumericLiteral 1%float)
             [] (mkState (mkScope None ∅) [])
             (of_value (mkValue [CNumber (Val 1%float)]))
             (mkState (mkScope None ∅) [])).
    + reflexivity.
    + reflexivity.
    + apply declares_nil.
Defined.

(** ** Calls and property accesses that cannot fail *)

Lemma apply_loop_property_failure access name cs m s err s' :
  apply_loop (property_callback access name) cs m s = (Thrown err, s') ->
  exists c, c ∈ cs /\ type_of c <> OBJECT.
Proof.
  revert m s. induction cs as [|c cs IH]; intros m s H; simpl in H.
  - discriminate.
  - apply bind_cases in H as [(err' & Hc & _)|(rs & s1 & Hc & H)].
    + exists c. split; [apply list_elem_of_here|].
      destruct c as [| | | | |props|]; try discriminate.
      unfold property_callback in Hc.
      destruct (defined props) as [[a record]|]; discriminate.
    + destruct (add_results m rs) as [v|m']; [discriminate|].
      apply IH in H as (c' & Hin & Hty). exists c'.
      split; [by apply elem_of_cons; right|done].
Qed.

(** X15.  A call on a value all of whose constraints are functions does not
    fail, and a property access on a value all of whose constraints are
    objects does not fail and leaves the state as it is. *)
Theorem join_on_expected_types_succeeds
  (handlers : Addr -> list Value -> Value) (n : Node) (args : list Value)
  (name : string) (v : Value) (s : State) :
  (Forall (fun c => type_of c = FUNCTION) (constraints v) ->
   exists r s', applyToValue v (call_callback handlers n args) s = (Ok r, s'))
  /\ (Forall (fun c => type_of c = OBJECT) (constraints v) ->
      exists r, applyToValue v (property_callback n name) s = (Ok r, s)).
Proof.
  split; intros Hall; rewrite Forall_forall in Hall; unfold applyToValue.
  - destruct (apply_loop _ _ _ _) as [[r|err] s'] eqn:H; [by eexists _, _|].
    apply apply_loop_call_failure in H as [_ (c & Hin & Hty)].
    by destruct (Hty (Hall c Hin)).
  - destruct (apply_loop _ _ _ _) as [[r|err] s'] eqn:H.
    + apply apply_loop_property_state in H as [-> _]. by eexists.
    + apply apply_loop_property_failure in H as (c & Hin & Hty).
      by destruct (Hty (Hall c Hin)).
Qed.

Lemma join_on_expected_types_succeeds_witness :
  exists r,
    applyToValue
      (mkValue [CObject (Val (console_props_addr, console_props))])
      (property_callback (ident "console") "log")
      (mkState createGlobalScope [])
    = (Ok r, mkState createGlobalScope []).
Proof.
  apply (proj2 (join_on_expected_types_succeeds native_handlers
                  (ident "console") [] "log"
                  (mkValue [CObject (Val (console_props_addr, console_props))])
                  (mkState createGlobalScope []))).
  repeat constructor.
Defined.

(** ** Merging two constraints of one type *)



(** ** The join as a merge of the contributions *)

Lemma apply_loop_pure f cs m s :
  apply_loop (pure_callback f) cs m s
  = (Ok (match add_results m (flat_map f cs) with
         | inl v => v
         | inr m' => rebuild m'
         end), s).
Proof.
  revert m. induction cs as [|c cs IH]; intros m; simpl.
  - reflexivity.
  - unfold bind, pure_callback, ret. rewrite add_results_app.
    destruct (add_results m (f c)) as [v|m']; [reflexivity|apply IH].
Qed.

(** X18.  With a transform that has no effect, the join of a value is the
    identity join of the value made of the contributions of its constraints,
    concatenated in order: how the results are grouped by the constraints
    they come from does not matter. *)
Theorem join_merges_concatenated_contributions
  (f : ValueConstraint -> list ValueConstraint) (v : Value) (s : State) :
  applyToValue v (pure_callback f) s
  = applyToValue (mkValue (flat_map f (constraints v)))
      (pure_callback identity_transform) s.
Proof.
  unfold applyToValue. rewrite !apply_loop_pure. simpl constraints.
  unfold identity_transform.
  replace (flat_map (fun c => [c]) (flat_map f (constraints v)))
    with (flat_map f (constraints v)); [reflexivity|].
  generalize (flat_map f (constraints v)).
  induction l as [|c l IH]; simpl; [done|]. by rewrite <- IH.
Qed.

(** ** Failures are the unsupported constructs met first *)

Lemma applyToValue_fails_at callback pre c post s before s1 err s2 :
  contributions callback pre s = (Ok before, s1) ->
  CAny ∉ before ->
  callback c s1 = (Thrown err, s2) ->
  applyToValue (mkValue (pre ++ c :: post)) callback s = (Thrown err, s2).
Proof.
  intros Hpre Hnot Hc. unfold applyToValue. simpl constraints.
  destruct (apply_loop_prefix callback pre (c :: post) no_buckets s before s1
              Hpre Hnot) as (m' & _ & ->).
  simpl. unfold bind. by rewrite Hc.
Qed.


Lemma call_callback_fails handlers call args c s err s' :
  call_callback handlers call args c s = (Thrown err, s') <->
  type_of c <> FUNCTION /\ err = not_a_function call /\ s' = s.
Proof.
  unfold call_callback, not_a_function. split.
  - destruct c as [| | | | | |hse h nd];
      try (by intros [= <- <-]).
    destruct (defined h); [|discriminate].
    unfold bind. destruct (truthy hse); discriminate.
  - intros (Hty & -> & ->). by destruct c.
Qed.


Lemma evaluates_to_then handlers callee_value call before rest acc s vs s1 :
  evaluates_to handlers before s vs s1 ->
  call_arguments handlers callee_value call (before ++ rest) acc s
  = call_arguments handlers callee_value call rest (acc ++ vs) s1.
Proof.
  intros H. revert acc.
  induction H as [s | arg before s r v s' vs s'' Hexec Hexc Hval _ IH];
    intros acc.
  - by rewrite app_nil_r.
  - rewrite <- app_comm_cons, call_arguments_cons, Hexec, Hexc, Hval.
    rewrite IH. by rewrite <- app_assoc.
Qed.









(** ** Property access on every constraint of the receiver *)






(** ** Side effects kept by a failing call *)

Lemma call_contributions_of_handlers handlers call args before s :
  Forall (fun k => exists hs h nd,
            k = CFunction hs (Val h) nd
            /\ CAny ∉ constraints (handlers h args)) before ->
  exists rs s1,
    contributions (call_callback handlers call args) before s = (Ok rs, s1)
    /\ CAny ∉ rs.
Proof.
  intros Hall. revert s.
  induction Hall as [|k before (hs & h & nd & -> & Hk) _ IH]; intros s; simpl.
  - exists [], s. split; [done|apply not_elem_of_nil].
  - unfold bind at 1. simpl.
    destruct (truthy hs); unfold bind; simpl.
    + destruct (IH (mkState (scope s) (sideEffects s ++ [args])))
        as (rs & s1 & -> & Hrs).
      eexists _, s1. split; [done|]. by apply not_elem_of_app.
    + destruct (IH s) as (rs & s1 & -> & Hrs).
      eexists _, s1. split; [done|]. by apply not_elem_of_app.
Qed.

Lemma call_join_fails_after_side_effect handlers call args before c post s :
  Forall (fun k => exists hs h nd,
            k = CFunction hs (Val h) nd
            /\ CAny ∉ constraints (handlers h args)) before ->
  (exists hs h nd, CFunction hs (Val h) nd ∈ before /\ truthy hs = true) ->
  type_of c <> FUNCTION ->
  exists s' k,
    applyToValue (mkValue (before ++ c :: post))
      (call_callback handlers call args) s
    = (Thrown (not_a_function call), s')
    /\ scope s' = scope s
    /\ sideEffects s' = sideEffects s ++ repeat args (S k).
Proof.
  intros Hall (hs & h & nd & Hin & Hse) Hc.
  destruct (call_contributions_of_handlers handlers call args before s Hall)
    as (rs & s1 & Hrs & Hnot).
  assert (Hfail : applyToValue (mkValue (before ++ c :: post))
                    (call_callback handlers call args) s
                  = (Thrown (not_a_function call), s1)).
  { apply (applyToValue_fails_at _ before c post s rs s1); try done.
    by apply call_callback_fails. }
  exists s1. unfold applyToValue in Hfail. simpl constraints in Hfail.
  pose proof (apply_loop_call_effects _ _ _ _ _ _ _ _ Hfail) as [Hsc _].
  apply list_elem_of_split in Hin as (pre & mid & ->).
  apply Forall_app in Hall as [Hpre _].
  rewrite <- app_assoc, <- app_comm_cons in Hfail.
  apply apply_loop_call_after_side_effect in Hfail as [k Hk]; [|done|].
  - exists k. unfold applyToValue. simpl constraints.
    split; [|done].
    pose proof (applyToValue_fails_at (call_callback handlers call args)
                  (pre ++ CFunction hs (Val h) nd :: mid) c post s rs s1
                  (not_a_function call) s1 Hrs Hnot) as Happly.
    unfold applyToValue in Happly. simpl constraints in Happly.
    apply Happly. by apply call_callback_fails.
  - eapply Forall_impl; [exact Hpre|].
    by intros k' (hs' & h' & nd' & -> & _).
Qed.

(** C10, as the claim states it, fails.  With the logging function before a
    function without handler and a number, the call records the side effect
    and evaluates to Any: no failure is raised and the run has no
    diagnostic.  With a number before the logging function, the failure is
    raised and nothing is recorded. *)
Lemma side_effect_claim_needs_more :
  let args := [mkValue [CNumber (Val 1%float)]] in
  let run callee :=
    evaluate native_handlers (mkScope None {[ "f" := callee ]})
      (SourceFile [ExpressionStatement call_f_1]) in
  let listed callee :=
    diagnostics
      (compile_from (fun _ => 0%Z) (fun _ => 0%Z) native_handlers
         (mkScope None {[ "f" := callee ]})
         (SourceFile [ExpressionStatement call_f_1])) in
  (fst (execNode native_handlers call_f_1
          (mkState (mkScope None {[ "f" := any_before_number ]}) []))
   = Ok (of_value (mkValue [CAny]))
   /\ sideEffects (snd (run any_before_number)) = [args]
   /\ listed any_before_number = [])
  /\ (fst (run number_first) = Thrown (not_a_function call_f_1)
      /\ sideEffects (snd (run number_first)) = []
      /\ length (listed number_first) = 1).
Proof. cbv zeta. repeat split; vm_compute; reflexivity. Qed.

(** C10, amended.  Let the callee of a call evaluate to a value in which a
    constraint that is not a function comes after constraints that are all
    functions with a handler whose result holds no Any, one of them
    side-effecting, and let the arguments evaluate.  Then the call raises
    the failure for a value that may not be a function, and in the state of
    the failure the argument list has been appended to the side effects at
    least once and the scope is as the arguments left it.  So the run of
    [f(1);] from a global scope where [f] is the logging function or a
    number ends with that one diagnostic and one recorded side effect. *)
Theorem side_effect_kept_when_call_fails
  (getFullStart getFullWidth : NodeRef -> Z) :
  (forall handlers e arguments s callee s0 args s1 before c post,
      execNode handlers e s = (Ok callee, s0) ->
      exception callee = None ->
      value callee = Some (mkValue (before ++ c :: post)) ->
      evaluates_to handlers arguments s0 args s1 ->
      Forall (fun k => exists hs h nd,
                k = CFunction hs (Val h) nd
                /\ CAny ∉ constraints (handlers h args)) before ->
      (exists hs h nd,
          CFunction hs (Val h) nd ∈ before /\ truthy hs = true) ->
      type_of c <> FUNCTION ->
      exists s' k,
        execNode handlers (CallExpression e arguments) s
        = (Thrown (not_a_function (CallExpression e arguments)), s')
        /\ scope s' = scope s1
        /\ sideEffects s' = sideEffects s1 ++ repeat args (S k))
  /\ diagnostics
       (compile_from getFullStart getFullWidth native_handlers mixed_scope
          program_f_1)
     = [mkDiagnostic program_f_1
          (Some (getFullStart (AtNode call_f_1)))
          (Some (getFullWidth (AtNode call_f_1)))
          Error "Z" "Called value may not be a function"]
  /\ sideEffects (snd (evaluate native_handlers mixed_scope program_f_1))
     = [[mkValue [CNumber (Val 1%float)]]].
Proof.
  split; [|split; vm_compute; reflexivity].
  intros handlers e arguments s callee s0 args s1 before c post
    He Hexc Hval Hargs Hall Hse Hc.
  destruct (call_join_fails_after_side_effect handlers
              (CallExpression e arguments) args before c post s1 Hall Hse Hc)
    as (s' & k & Hjoin & Hsc & Hk).
  exists s', k. split; [|by split].
  rewrite execNode_CallExpression, He, Hexc, Hval.
  rewrite <- (app_nil_r arguments).
  rewrite (evaluates_to_then _ _ _ _ _ _ _ _ _ Hargs).
  rewrite call_arguments_nil. simpl app. rewrite app_nil_r.
  by rewrite Hjoin.
Qed.

Lemma side_effect_kept_when_call_fails_witness :
  exists s' k,
    execNode native_handlers call_f_1 (mkState mixed_scope [])
    = (Thrown (not_a_function call_f_1), s')
    /\ scope s' = mixed_scope
    /\ sideEffects s' = [] ++ repeat [mkValue [CNumber (Val 1%float)]] (S k).
Proof.
  apply (proj1 (side_effect_kept_when_call_fails (fun _ => 0%Z) (fun _ => 0%Z))
           native_handlers (ident "f") [NumericLiteral 1%float]
           (mkState mixed_scope [])
           (mkResult (Some mixed_callee) None (Some "f"))
           (mkState mixed_scope [])
           [mkValue [CNumber (Val 1%float)]]
           (mkState mixed_scope [])
           [CFunction (Val true) (Val console_log_addr) Missing]
           (CNumber (Val 0%float)) []).
  - vm_compute. reflexivity.
  - reflexivity.
  - reflexivity.
  - apply (evaluates_to_cons native_handlers _ [] _
             (of_value (mkValue [CNumber (Val 1%float)]))
             (mkValue [CNumber (Val 1%float)]) (mkState mixed_scope [])
             [] (mkState mixed_scope [])).
    + reflexivity.
    + reflexivity.
    + reflexivity.
    + apply evaluates_to_nil.
  - apply List.Forall_cons; [|apply List.Forall_nil].
    exists (Val true), console_log_addr, Missing. split; [reflexivity|].
    intros Hin. apply list_elem_of_singleton in Hin. discriminate.
  - exists (Val true), console_log_addr, Missing.
    split; [apply list_elem_of_here|reflexivity].
  - discriminate.
Defined.
